(** * ChatTriggeredFeature: triggers, matcher, store and scoped cache

    A shallow embedding of [src/database/ChatTriggeredFeature.js].

    Conventions of the model:
    - a JS string is a [string]: a sequence of code units, each below 256
      (the Latin-1 range); [length] is the JS [.length];
    - a JS number is a binary64 value, a [spec_float] at precision 53;
    - a [Collection] (discord.js, an insertion-ordered [Map]) is an
      association list with unique keys; the two scope caches are finite maps
      from snowflake to [Collection];
    - a timer set by [setTimeout] is recorded, and its function
      ([Feature.expire]) may run between two calls. A method that waits
      once for the database ([save], [remove], [getAll], [refreshGuild],
      [refreshChannel], [getByID]) is one step: a timer that runs during
      its wait changes the caches only and the statement it waits for
      reads or writes the table only, so the timer may as well have run
      before the call. [get] tests the caches, waits up to twice and then
      reads the caches again, so it takes what goes on during each wait as
      an argument: the timers that run and whether the query is answered
      or rejected. Calls of other handlers are not interleaved. *)

From Stdlib Require Import ZArith Ascii String List Bool Lia Sorted.
From Stdlib Require Import SpecFloat.
From stdpp Require Import base option list gmap strings.

Open Scope Z_scope.

(** ** Strings *)

Module Str.

Definition code (c : ascii) : N := N_of_ascii c.

Definition in_range (lo hi : N) (c : ascii) : bool :=
  ((lo <=? code c) && (code c <=? hi))%N.

(** [String.prototype.toLowerCase] on one code unit below 256: the ASCII
    capitals and the Latin-1 capitals (all of U+00C0..U+00DE but the
    multiplication sign U+00D7) move up by 32. *)
Definition lower_unit (c : ascii) : ascii :=
  if in_range 65 90 c || (in_range 192 222 c && negb (code c =? 215)%N)
  then ascii_of_N (code c + 32) else c.

(** The case folding of a case-insensitive [RegExp] without the [u] flag
    ([Canonicalize]): upper-casing, except that a unit of 128 or more never
    folds to one below 128; only the ASCII letters matter for matching an
    ASCII pattern character. *)
Definition canonicalize (c : ascii) : ascii :=
  if in_range 97 122 c then ascii_of_N (code c - 32) else c.

Fixpoint toLowerCase (s : string) : string :=
  match s with
  | EmptyString => EmptyString
  | String c s' => String (lower_unit c) (toLowerCase s')
  end.

(** [s.startsWith(p)] *)
Fixpoint startsWith (s p : string) {struct p} : bool :=
  match p, s with
  | EmptyString, _ => true
  | String a p', String b s' => Ascii.eqb a b && startsWith s' p'
  | String _ _, EmptyString => false
  end.

(** [s.includes(p)] *)
Fixpoint includes (s p : string) : bool :=
  startsWith s p ||
  match s with
  | EmptyString => false
  | String _ s' => includes s' p
  end.

Fixpoint rev_onto (s acc : string) : string :=
  match s with
  | EmptyString => acc
  | String c s' => rev_onto s' (String c acc)
  end.

Definition reverse (s : string) : string := rev_onto s EmptyString.

(** [s.endsWith(p)] *)
Definition endsWith (s p : string) : bool :=
  startsWith (reverse s) (reverse p).

(** [s.split(sep)] for a separator of one code unit: never empty, the
    empty string gives one empty piece. *)
Fixpoint split_unit (sep : ascii) (s : string) : list string :=
  match s with
  | EmptyString => [EmptyString]
  | String c s' =>
      if Ascii.eqb c sep then EmptyString :: split_unit sep s'
      else match split_unit sep s' with
           | p :: ps => String c p :: ps
           | [] => [String c EmptyString]
           end
  end.

(** Whether the code unit [c] occurs in [s]. *)
Fixpoint has_unit (c : ascii) (s : string) : bool :=
  match s with
  | EmptyString => false
  | String x s' => Ascii.eqb x c || has_unit c s'
  end.

(** JS truthiness of a string: the empty string is falsy. *)
Definition truthy (s : string) : bool :=
  match s with EmptyString => false | String _ _ => true end.

(** JS truthiness of a possibly [undefined] string. *)
Definition truthy_opt (o : option string) : bool :=
  match o with Some s => truthy s | None => false end.

(** [\s] of a [RegExp] and the white space [parseFloat] skips, among the
    code units below 256: TAB, LF, VT, FF, CR, SP and NBSP. *)
Definition is_space (c : ascii) : bool :=
  in_range 9 13 c || (code c =? 32)%N || (code c =? 160)%N.

(** [\w] of a [RegExp] without the [u] flag. *)
Definition is_word (c : ascii) : bool :=
  in_range 48 57 c || in_range 65 90 c || in_range 97 122 c || (code c =? 95)%N.

Definition is_digit (c : ascii) : bool := in_range 48 57 c.

End Str.

(** ** A backtracking matcher for the regular expressions of the source *)

Module Regex.

(** The fragment of the RegExp syntax the source uses. A quantifier [+]
    only ever applies to a character class there. *)
Inductive regex : Type :=
| Lit (c : ascii)                    (* a pattern character *)
| Class (p : ascii -> bool)          (* [...] or \s *)
| Cat (r1 r2 : regex)                (* r1r2 *)
| Opt (r : regex)                    (* r? , greedy *)
| Plus (p : ascii -> bool)           (* [...]+ , greedy *)
| Group (n : nat) (r : regex)        (* the n-th capturing group *)
| Bol                                (* ^ *)
| Eol                                (* $ *)
| WordBoundary                       (* \b *)
| NotBehind (c : ascii).             (* (?<!c) *)

(** A position in the subject: the units before it, nearest first, the
    units after it, and the groups captured so far. *)
Record mstate : Type := MState {
  before : list ascii;
  after : list ascii;
  caps : list (nat * string)
}.

Definition captured (st st' : mstate) : string :=
  string_of_list_ascii
    (rev (take (length (before st') - length (before st))%nat (before st'))).

Fixpoint cap (n : nat) (cs : list (nat * string)) : option string :=
  match cs with
  | [] => None
  | (m, s) :: cs' => if Nat.eqb m n then Some s else cap n cs'
  end.

Section Run.
Variable ignoreCase : bool.

Definition same_unit (x c : ascii) : bool :=
  if ignoreCase then Ascii.eqb (Str.canonicalize x) (Str.canonicalize c)
  else Ascii.eqb x c.

Fixpoint plus_class (p : ascii -> bool) (k : mstate -> option mstate)
    (b a : list ascii) (cs : list (nat * string)) : option mstate :=
  match a with
  | c :: a' =>
      if p c then
        match plus_class p k (c :: b) a' cs with
        | Some r => Some r
        | None => k (MState (c :: b) a' cs)
        end
      else None
  | [] => None
  end.

Definition at_word (l : list ascii) : bool :=
  match l with c :: _ => Str.is_word c | [] => false end.

(** [run r k st]: match [r] at [st], then the rest of the pattern [k];
    alternatives are tried in the order of a backtracking engine. *)
Fixpoint run (r : regex) (k : mstate -> option mstate) (st : mstate)
    : option mstate :=
  match r with
  | Lit c =>
      match after st with
      | x :: a' =>
          if same_unit x c then k (MState (x :: before st) a' (caps st))
          else None
      | [] => None
      end
  | Class p =>
      match after st with
      | x :: a' =>
          if p x then k (MState (x :: before st) a' (caps st)) else None
      | [] => None
      end
  | Cat r1 r2 => run r1 (run r2 k) st
  | Opt r' =>
      match run r' k st with
      | Some e => Some e
      | None => k st
      end
  | Plus p => plus_class p k (before st) (after st) (caps st)
  | Group n r' =>
      run r'
        (fun st' =>
           k (MState (before st') (after st')
                ((n, captured st st') :: caps st')))
        st
  | Bol => match before st with [] => k st | _ :: _ => None end
  | Eol => match after st with [] => k st | _ :: _ => None end
  | WordBoundary =>
      if xorb (at_word (before st)) (at_word (after st)) then k st
      else None
  | NotBehind c =>
      match before st with
      | x :: _ => if Ascii.eqb x c then None else k st
      | [] => k st
      end
  end.

(** One attempt at the current position. *)
Definition match_here (r : regex) (b a : list ascii) : option mstate :=
  run r Some (MState b a []).

(** [RegExp.prototype.exec] from a position on: the first position at or
    after it where the pattern matches; the result is the position the
    match starts at and the state at its end (the new [lastIndex]). *)
Fixpoint exec (r : regex) (b a : list ascii) : option (list ascii * mstate) :=
  match match_here r b a with
  | Some e => Some (b, e)
  | None =>
      match a with
      | [] => None
      | c :: a' => exec r (c :: b) a'
      end
  end.

(** The successive results of [exec] on a global pattern, each call
    resuming at the end of the previous match, until [exec] answers
    [null]: the matches a loop [while ((m = regex.exec(s)) !== null)]
    sees. [skip] counts the units still to pass before [lastIndex]. An
    empty match would move on by one unit as [matchAll] does; no pattern
    of the source matches the empty string. *)
Fixpoint exec_all (r : regex) (skip : nat) (b a : list ascii) {struct a}
    : list (list ascii * mstate) :=
  match skip with
  | S n =>
      match a with
      | [] => []
      | c :: a' => exec_all r n (c :: b) a'
      end
  | O =>
      match match_here r b a with
      | Some e =>
          (b, e) ::
          match a with
          | [] => []
          | c :: a' =>
              exec_all r (length (before e) - length b - 1)%nat (c :: b) a'
          end
      | None =>
          match a with
          | [] => []
          | c :: a' => exec_all r O (c :: b) a'
          end
      end
  end.

(** The pieces of [s.split(r)] given the matches of the separator [r] in
    [s]: the text from the end of one match to the start of the next,
    and the text after the last match. [b] is the position the current
    piece starts at, [whole] the whole subject reversed. *)
Fixpoint pieces (ms : list (list ascii * mstate)) (b whole : list ascii)
    : list string :=
  match ms with
  | [] =>
      [string_of_list_ascii (rev (take (length whole - length b)%nat whole))]
  | (b0, e) :: ms' =>
      string_of_list_ascii (rev (take (length b0 - length b)%nat b0))
      :: pieces ms' (before e) whole
  end.
End Run.

(** [matches[n]] of a match result: [None] is [undefined]. *)
Definition group (n : nat) (e : mstate) : option string := cap n (caps e).

(** [s.match(r)] and the first [exec] of a pattern on [s]. *)
Definition exec_string (ignoreCase : bool) (r : regex) (s : string)
    : option mstate :=
  snd <$> exec ignoreCase r [] (list_ascii_of_string s).

(** The matches a global pattern finds in [s], in order. *)
Definition matchAll (ignoreCase : bool) (r : regex) (s : string)
    : list mstate :=
  snd <$> exec_all ignoreCase r O [] (list_ascii_of_string s).

(** [s.split(r)] for a pattern without capturing groups. *)
Definition split (r : regex) (s : string) : list string :=
  let a := list_ascii_of_string s in
  pieces (exec_all false r O [] a) [] (rev a).

(** A negated class [[^...]]. *)
Definition not_in (cs : list ascii) (c : ascii) : bool :=
  negb (existsb (Ascii.eqb c) cs).

Declare Scope regex_scope.
Delimit Scope regex_scope with re.
Infix "+>" := Cat (at level 60, right associativity) : regex_scope.

End Regex.

(** ** Numbers *)

Module Num.

Definition prec : Z := 53.
Definition emax : Z := 1024.

Definition number : Type := spec_float.

Definition NaN : number := S754_nan.

(** An integer as a number (exact below 2^53, rounded to nearest even
    above). *)
Definition of_Z (z : Z) : number := binary_normalize prec emax z 0 false.

Definition of_nat (n : nat) : number := of_Z (Z.of_nat n).

Definition mul (x y : number) : number := SFmul prec emax x y.
Definition div (x y : number) : number := SFdiv prec emax x y.

(** [x >= y]: false when either side is NaN. *)
Definition ge (x y : number) : bool := SFleb y x.

(** JS truthiness of a number: NaN, +0 and -0 are falsy. *)
Definition truthy (x : number) : bool :=
  match x with
  | S754_nan | S754_zero _ => false
  | _ => true
  end.

(** The number nearest to [(-1)^neg * m * 10^e] (ties to even). *)
Definition of_decimal (neg : bool) (m : N) (e : Z) : number :=
  match m with
  | N0 => S754_zero neg
  | Npos p =>
      if 0 <=? e then binary_round prec emax neg (Z.to_pos (Zpos p * 10 ^ e)) 0
      else div (S754_finite neg p 0) (S754_finite false (Z.to_pos (10 ^ (- e))) 0)
  end.

Fixpoint skip_space (s : list ascii) : list ascii :=
  match s with
  | c :: s' => if Str.is_space c then skip_space s' else s
  | [] => []
  end.

(** Reads decimal digits: the value of [acc] followed by the digits read,
    how many were read, and the rest. *)
Fixpoint read_digits (s : list ascii) (acc : N) (n : nat)
    : N * nat * list ascii :=
  match s with
  | c :: s' =>
      if Str.is_digit c
      then read_digits s' (acc * 10 + (Str.code c - 48))%N (S n)
      else (acc, n, s)
  | [] => (acc, n, [])
  end.

Definition read_sign (s : list ascii) : bool * list ascii :=
  match s with
  | "+"%char :: t => (false, t)
  | "-"%char :: t => (true, t)
  | _ => (false, s)
  end.

(** The value of an [ExponentPart] at the head of [s]; 0 when there is no
    well-formed one (it is then not part of the longest prefix). *)
Definition read_exponent (s : list ascii) : Z :=
  match s with
  | c :: s1 =>
      if Ascii.eqb c "e" || Ascii.eqb c "E" then
        let '(neg, s2) := read_sign s1 in
        let '(v, n, _) := read_digits s2 0%N 0%nat in
        if Nat.eqb n 0 then 0
        else if neg then - Z.of_N v else Z.of_N v
      else 0
  | [] => 0
  end.

Definition read_unsigned (neg : bool) (s : list ascii) : number :=
  if Str.startsWith (string_of_list_ascii s) "Infinity" then S754_infinity neg
  else
    let '(i, ni, s1) := read_digits s 0%N 0%nat in
    match s1 with
    | "."%char :: s2 =>
        let '(m, nf, s3) := read_digits s2 i 0%nat in
        if Nat.eqb ni 0 && Nat.eqb nf 0 then NaN
        else of_decimal neg m (read_exponent s3 - Z.of_nat nf)
    | _ =>
        if Nat.eqb ni 0 then NaN else of_decimal neg i (read_exponent s1)
    end.

(** [parseFloat(s)] on a string: leading white space is skipped, the
    longest prefix that is a [StrDecimalLiteral] is converted, and NaN is
    the answer when there is none. The exact decimal value is rounded, as
    the engines do; the standard also lets an engine round after the 20th
    significant digit. *)
Definition parseFloat_string (s : string) : number :=
  let '(neg, t) := read_sign (skip_space (list_ascii_of_string s)) in
  read_unsigned neg t.

(** [parseFloat(x)] where [x] may be [undefined]: the argument is first
    converted to the string ["undefined"], which is no number. *)
Definition parseFloat (x : option string) : number :=
  match x with
  | Some s => parseFloat_string s
  | None => NaN
  end.

(** The literal [0.5]. *)
Definition half : number := of_decimal false 5 (-1).

(** [x || 0.5] *)
Definition or_half (x : number) : number := if truthy x then x else half.

End Num.

(** ** The Dice coefficient of the string-similarity package *)

Module StringSimilarity.

(** [s.replace(/\s+/g, '')] *)
Fixpoint strip_space (s : string) : string :=
  match s with
  | EmptyString => EmptyString
  | String c s' =>
      if Str.is_space c then strip_space s' else String c (strip_space s')
  end.

(** The counts of the bigrams [s.substring(i, i + 2)], [i < s.length - 1],
    added to [m]. *)
Fixpoint count_bigrams (s : string) (m : gmap string nat) : gmap string nat :=
  match s with
  | String a ((String b _) as s') =>
      let bigram := String a (String b EmptyString) in
      let count := match m !! bigram with Some n => S n | None => 1%nat end in
      count_bigrams s' (<[bigram := count]> m)
  | _ => m
  end.

(** The second loop: every bigram of [s] still counted in [m] uses one of
    its occurrences up and adds one to the intersection size. *)
Fixpoint intersect (s : string) (m : gmap string nat) (size : nat) : nat :=
  match s with
  | String a ((String b _) as s') =>
      let bigram := String a (String b EmptyString) in
      match m !! bigram with
      | Some (S n) => intersect s' (<[bigram := n]> m) (S size)
      | _ => intersect s' m size
      end
  | _ => size
  end.

(** Modelled from the spec: [compareTwoStrings] of the string-similarity
    package, which is not among the sources; the spec calls it a normalized
    bigram (Dice) similarity in [0,1]. White space is dropped, equal strings
    score 1, a string shorter than two units scores 0, and otherwise the
    score is twice the number of shared bigrams (counted with
    multiplicity) over the total number of bigrams. *)
Definition compareTwoStrings (first second : string) : Num.number :=
  let first := strip_space first in
  let second := strip_space second in
  if String.eqb first second then Num.of_Z 1
  else if (String.length first <? 2)%nat || (String.length second <? 2)%nat
  then Num.of_Z 0
  else
    let firstBigrams := count_bigrams first ∅ in
    let intersectionSize := intersect second firstBigrams 0%nat in
    Num.div (Num.mul (Num.of_Z 2) (Num.of_nat intersectionSize))
            (Num.of_Z (Z.of_nat (String.length first)
                       + Z.of_nat (String.length second) - 2)).

End StringSimilarity.

(** ** The JavaScript engine's own regular expressions *)

(** A pattern a user wrote is compiled by [new RegExp(content, flags)]: the
    engine either throws a [SyntaxError] ([None]) or gives an object whose
    [test], on a fresh object, is a function of the subject. *)
Class JsRegExp : Type := {
  RegExp_new : string -> option string -> option (string -> bool)
}.

(** ** Triggers and the matcher *)

Inductive js_error : Type :=
| SyntaxError                 (* thrown by [new RegExp] *)
| TypeError                   (* a property of [undefined] is read *)
| Thrown (message : string)   (* [throw '...'] *)
| Rejected.                   (* a rejected database promise *)

Inductive completion (A : Type) : Type :=
| Normal (a : A)
| Throw (e : js_error).
Arguments Normal {A} a.
Arguments Throw {A} e.

(** Modelled from the spec: the class [Trigger] of [./Trigger.js] is not
    among the sources; the spec gives a trigger a kind, a content and
    optional flags, the three properties [matches] and [getTrigger] read and
    write under the names [type], [content] and [flags]. *)
Record Trigger : Type := {
  type : string;
  content : string;
  flags : option string
}.

Module Matcher.
Import Regex.
Local Open Scope regex_scope.

(** [/^([^/]+)\.([^./(]+)(?:\(([^)]+)\))?$/] *)
Definition domain_regex : regex :=
  Bol +> Group 1 (Plus (not_in ["/"%char])) +> Lit "." +>
  Group 2 (Plus (not_in ["."%char; "/"%char; "("%char])) +>
  Opt (Lit "(" +> Group 3 (Plus (not_in [")"%char])) +> Lit ")") +> Eol.

(** [/,\s?/g] *)
Definition comma_regex : regex := Lit "," +> Opt (Class Str.is_space).

(** [/https?:\/\/([^/]+)\.([^./]+)\b/ig] *)
Definition link_regex : regex :=
  Lit "h" +> Lit "t" +> Lit "t" +> Lit "p" +> Opt (Lit "s") +>
  Lit ":" +> Lit "/" +> Lit "/" +>
  Group 1 (Plus (not_in ["/"%char])) +> Lit "." +>
  Group 2 (Plus (not_in ["."%char; "/"%char])) +> WordBoundary.

(** [list.includes(x)] on strings. *)
Definition list_includes (l : list string) (x : string) : bool :=
  existsb (String.eqb x) l.

(** The first two pieces of [String(content).split(':')], as the
    destructuring [[domain, similarity] = ...] binds them. *)
Definition split_content (content : string) : string * option string :=
  match Str.split_unit ":" content with
  | domain :: similarity :: _ => (domain, Some similarity)
  | [domain] => (domain, None)
  | [] => (EmptyString, None)
  end.

(** The body of the loop over the links of the message; [rest] is what the
    remaining iterations answer. *)
Definition check_link (expectedDomain : string) (expectedExtensions : list string)
    (similarity : Num.number) (m : mstate) (rest : bool) : bool :=
  match group 1 m, group 2 m with
  | Some m1, Some m2 =>
      if negb (Str.truthy m1) || negb (Str.truthy m2) then rest
      else
        let foundDomain := Str.toLowerCase m1 in
        let foundExtension := Str.toLowerCase m2 in
        let mainPartMatches :=
          String.eqb foundDomain expectedDomain
          || Str.endsWith foundDomain (String "." expectedDomain) in
        if mainPartMatches && list_includes expectedExtensions foundExtension
        then rest
        else if mainPartMatches
                && negb (list_includes expectedExtensions foundExtension)
        then true
        else if Num.ge (StringSimilarity.compareTwoStrings expectedDomain foundDomain)
                       similarity
        then true
        else rest
  | _, _ => rest
  end.

Fixpoint scan_links (expectedDomain : string) (expectedExtensions : list string)
    (similarity : Num.number) (ms : list mstate) : bool :=
  match ms with
  | [] => false
  | m :: ms' =>
      check_link expectedDomain expectedExtensions similarity m
        (scan_links expectedDomain expectedExtensions similarity ms')
  end.

(** The [case 'phishing'] block after its first three lines: [domain] is
    the lower-cased domain part, [similarity] the least similarity. *)
Definition phishing_parsed (domain : string) (similarity : Num.number)
    (message : string) : bool :=
  match exec_string false domain_regex domain with
  | None => false
  | Some parts =>
      match group 1 parts, group 2 parts with
      | Some p1, Some p2 =>
          if negb (Str.truthy p1) || negb (Str.truthy p2) then false
          else
            let expectedDomain := p1 in
            let expectedExtensions :=
              match group 3 parts with
              | Some p3 =>
                  if Str.truthy p3
                  then p2 :: split comma_regex (Str.toLowerCase p3)
                  else [p2]
              | None => [p2]
              end in
            scan_links expectedDomain expectedExtensions similarity
              (matchAll true link_regex message)
      | _, _ => false
      end
  end.

(** The [case 'phishing'] block. *)
Definition phishing (content message : string) : bool :=
  let '(domain, similarity) := split_content content in
  let similarity := Num.or_half (Num.parseFloat similarity) in
  let domain := Str.toLowerCase domain in
  phishing_parsed domain similarity message.

(** [matches(message)] on the trigger of a feature and the content of the
    message. *)
Definition matches {R : JsRegExp} (trigger : Trigger) (message : string)
    : completion bool :=
  if String.eqb (type trigger) "include" then
    if Str.includes (Str.toLowerCase message) (Str.toLowerCase (content trigger))
    then Normal true else Normal false
  else if String.eqb (type trigger) "match" then
    if String.eqb (Str.toLowerCase message) (Str.toLowerCase (content trigger))
    then Normal true else Normal false
  else if String.eqb (type trigger) "regex" then
    match RegExp_new (content trigger) (flags trigger) with
    | None => Throw SyntaxError
    | Some test => if test message then Normal true else Normal false
    end
  else if String.eqb (type trigger) "phishing" then
    Normal (phishing (content trigger) message)
  else Normal false.

End Matcher.

(** ** Feature records, the table and the scoped cache *)

(** A bound parameter of a statement, a value [serialize()] gives. *)
Inductive sql_value : Type :=
| VString (s : string)
| VNumber (z : Z)
| VNull.

(** The fields of [ChatTriggeredFeature]; [extra] stands for the fields a
    kind adds (response, punishment, priority). [id] is [None] while it is
    unset. *)
Record ChatTriggeredFeature (E : Type) : Type := {
  id : option Z;
  trigger : Trigger;
  global : bool;
  gid : string;
  channels : list string;
  extra : E
}.
Arguments id {E} _.
Arguments trigger {E} _.
Arguments global {E} _.
Arguments gid {E} _.
Arguments channels {E} _.
Arguments extra {E} _.

(** A row of the table of a kind, as a query gives it back; the [trigger]
    column is shown parsed. *)
Record Row (E : Type) : Type := {
  row_id : Z;
  row_guildid : string;
  row_trigger : Trigger;
  row_global : Z;
  row_channels : string;
  row_extra : E
}.
Arguments row_id {E} _.
Arguments row_guildid {E} _.
Arguments row_trigger {E} _.
Arguments row_global {E} _.
Arguments row_channels {E} _.
Arguments row_extra {E} _.

(** What a concrete kind (a subclass) supplies: its table and columns, the
    abstract methods [serialize] and [getOverview], and what the database
    does with a write. A write is either rejected ([None]) or changes the
    table; an insert also gives the [insertId]. *)
Class FeatureKind : Type := {
  Extra : Type;
  tableName : string;
  columns : list string;
  serialize : ChatTriggeredFeature Extra -> list sql_value;
  getOverview : ChatTriggeredFeature Extra -> string;
  run_insert : list sql_value -> list (Row Extra) -> option (Z * list (Row Extra));
  run_update : list sql_value -> list (Row Extra) -> option (list (Row Extra))
}.

(** The statements [Database.instance.queryAll] is called with. *)
Inductive statement : Type :=
| SelectAll (guildId : string)        (* SELECT * ... WHERE guildid = ? *)
| SelectGlobal (guildId : string)     (* ... WHERE guildid = ? AND global = TRUE *)
| SelectChannels (pattern : string)   (* ... WHERE channels LIKE ? *)
| Insert (values : list sql_value)    (* INSERT INTO ... VALUES (?,...) *)
| Update (values : list sql_value).   (* UPDATE ... SET c=?,... WHERE id = ? *)

Inductive scope : Type := ChannelScope | GuildScope.

(** [cacheDuration], in milliseconds. *)
Definition cacheDuration : Z := 10 * 60 * 1000.

Module Sql.

(** [subject LIKE pattern]: [%] stands for any run of units, [_] for any
    one unit, and a backslash takes the next unit literally. Units are
    compared as they are; whether letters fold depends on the collation of
    the column and is of no concern to a list of decimal ids. *)
Fixpoint like (pattern subject : list ascii) {struct pattern} : bool :=
  match pattern with
  | [] => match subject with [] => true | _ :: _ => false end
  | p :: pattern' =>
      if Ascii.eqb p "%" then
        (fix any (subject : list ascii) : bool :=
           like pattern' subject
           || match subject with
              | [] => false
              | _ :: subject' => any subject'
              end) subject
      else if Ascii.eqb p "_" then
        match subject with
        | [] => false
        | _ :: subject' => like pattern' subject'
        end
      else if Ascii.eqb p "\" then
        match pattern' with
        | q :: pattern'' =>
            match subject with
            | c :: subject' => Ascii.eqb c q && like pattern'' subject'
            | [] => false
            end
        | [] =>
            match subject with
            | [c] => Ascii.eqb c p
            | _ => false
            end
        end
      else
        match subject with
        | c :: subject' => Ascii.eqb c p && like pattern' subject'
        | [] => false
        end
  end.

Definition LIKE (subject pattern : string) : bool :=
  like (list_ascii_of_string pattern) (list_ascii_of_string subject).

End Sql.

Module Collection.

(** An insertion-ordered map: the entries in order, keys unique. *)
Definition t (V : Type) : Type := list (Z * V).

Definition empty {V} : t V := [].

Fixpoint get {V} (c : t V) (k : Z) : option V :=
  match c with
  | [] => None
  | (k', v) :: c' => if k' =? k then Some v else get c' k
  end.


(** [set]: an existing key keeps its place and takes the new value, a new
    key goes last. *)
Fixpoint set {V} (c : t V) (k : Z) (v : V) : t V :=
  match c with
  | [] => [(k, v)]
  | (k', v') :: c' =>
      if k' =? k then (k, v) :: c' else (k', v') :: set c' k v
  end.

Definition size {V} (c : t V) : nat := length c.

Definition values {V} (c : t V) : list V := snd <$> c.

Definition keys {V} (c : t V) : list Z := fst <$> c.

(** [this.concat(other)]: a copy of [this] in which every entry of
    [other] is [set], in order. *)
Definition concat {V} (c other : t V) : t V :=
  fold_left (fun acc kv => set acc (fst kv) (snd kv)) other c.

(** Inserts an entry before the first entry it does not come after. *)
Fixpoint insert_by {V} (cmp : V -> V -> Z) (x : Z * V) (c : t V) : t V :=
  match c with
  | [] => [x]
  | y :: c' =>
      if cmp (snd x) (snd y) <=? 0 then x :: y :: c'
      else y :: insert_by cmp x c'
  end.

(** [sort(compareFunction)]: the entries sorted by their values;
    [Array.prototype.sort] is stable, and for a consistent comparison the
    stable sort is unique. *)
Definition sort {V} (cmp : V -> V -> Z) (c : t V) : t V :=
  fold_right (insert_by cmp) [] c.

(** [delete(key)]: the entry of the key goes, the others keep their order. *)
Fixpoint delete {V} (c : t V) (k : Z) : t V :=
  match c with
  | [] => []
  | (k', v) :: c' => if k' =? k then delete c' k else (k', v) :: delete c' k
  end.

End Collection.

(** The process and its database, for one kind of feature. *)
Record World (E : Type) : Type := {
  table : list (Row E);
  issued : list statement;
  channelCache : gmap string (Collection.t (ChatTriggeredFeature E));
  guildCache : gmap string (Collection.t (ChatTriggeredFeature E));
  timers : list (Z * scope * string)
}.
Arguments table {E} _.
Arguments issued {E} _.
Arguments channelCache {E} _.
Arguments guildCache {E} _.
Arguments timers {E} _.

Module Feature.
Section Kind.
Context `{K : FeatureKind}.

Abbreviation Feature := (ChatTriggeredFeature Extra).
Abbreviation world := (World Extra).

(** [matches(message)] *)
Definition matches {R : JsRegExp} (this : Feature) (message : string)
    : completion bool :=
  Matcher.matches (trigger this) message.

(** Modelled from the spec: [fromData] calls [new this(...)], the
    constructor of the kind, which is not among the sources; it is taken to
    store the guild id, the trigger, [global], [channels] and the id it is
    given in the fields of those names. *)
Definition fromData (data : Row Extra) : Feature :=
  {| id := Some (row_id data);
     trigger := row_trigger data;
     global := row_global data =? 1;
     gid := row_guildid data;
     channels := Str.split_unit "," (row_channels data);
     extra := row_extra data |}.

Definition issue (q : statement) (w : world) : world :=
  {| table := table w; issued := issued w ++ [q];
     channelCache := channelCache w; guildCache := guildCache w;
     timers := timers w |}.

Definition with_table (t : list (Row Extra)) (w : world) : world :=
  {| table := t; issued := issued w;
     channelCache := channelCache w; guildCache := guildCache w;
     timers := timers w |}.

Definition with_channelCache
    (c : gmap string (Collection.t Feature)) (w : world) : world :=
  {| table := table w; issued := issued w;
     channelCache := c; guildCache := guildCache w;
     timers := timers w |}.

Definition with_guildCache
    (c : gmap string (Collection.t Feature)) (w : world) : world :=
  {| table := table w; issued := issued w;
     channelCache := channelCache w; guildCache := c;
     timers := timers w |}.

Definition schedule (s : scope) (key : string) (w : world) : world :=
  {| table := table w; issued := issued w;
     channelCache := channelCache w; guildCache := guildCache w;
     timers := timers w ++ [(cacheDuration, s, key)] |}.

(** Modelled from the spec: [Database.instance.queryAll] of
    [../bot/Database.js] is not among the sources; it runs a statement with
    its bound parameters on the relational store. For a SELECT the answer is
    the rows of the table of the kind that the WHERE clause of the statement
    keeps, and the statement is recorded as issued. *)
Definition select (q : statement) (w : world) : list (Row Extra) * world :=
  let rows :=
    match q with
    | SelectAll guildId =>
        filter (fun r => String.eqb (row_guildid r) guildId = true) (table w)
    | SelectGlobal guildId =>
        filter (fun r => String.eqb (row_guildid r) guildId = true
                         ∧ row_global r = 1) (table w)
    | SelectChannels pattern =>
        filter (fun r => Sql.LIKE (row_channels r) pattern = true) (table w)
    | _ => []
    end in
  (rows, issue q w).

(** The loop [for (const res of result) newItems.set(res.id, ...)]. *)
Definition collect (result : list (Row Extra)) : Collection.t Feature :=
  fold_left (fun newItems res => Collection.set newItems (row_id res) (fromData res))
    result Collection.empty.

(** The comparison [(a, b) => a.id - b.id]; a NaN counts as 0 in a sort. *)
Definition by_id (a b : Feature) : Z :=
  match id a, id b with
  | Some x, Some y => x - y
  | _, _ => 0
  end.

(** [getAll(guildId)] *)
Definition getAll (guildId : string) (w : world)
    : Collection.t Feature * world :=
  let '(result, w) := select (SelectAll guildId) w in
  (Collection.sort by_id (collect result), w).

(** [refreshGuild(guildId)] *)
Definition refreshGuild (guildId : string) (w : world) : world :=
  let '(result, w) := select (SelectGlobal guildId) w in
  let newItems := collect result in
  schedule GuildScope guildId
    (with_guildCache (<[guildId := newItems]> (guildCache w)) w).

(** [refreshChannel(channelId)] *)
Definition refreshChannel (channelId : string) (w : world) : world :=
  let '(result, w) :=
    select (SelectChannels (String "%" (channelId +:+ "%"))) w in
  let newItems := collect result in
  schedule ChannelScope channelId
    (with_channelCache (<[channelId := newItems]> (channelCache w)) w).

(** The function a timer runs when it is due: [getChannelCache().delete(key)]
    or [getGuildCache().delete(key)]. *)
Definition expire (s : scope) (key : string) (w : world) : world :=
  match s with
  | ChannelScope => with_channelCache (delete key (channelCache w)) w
  | GuildScope => with_guildCache (delete key (guildCache w)) w
  end.

(** What goes on while a call waits for the answer of the database: the
    timers that become due run their functions, and the query is answered
    or rejected. A timer is named by its place in the record of the timers
    set, so that only a timer that was set can run. *)
Record wait : Type := Wait {
  due : list nat;
  answered : bool
}.

(** A wait during which no timer is due and the query is answered. *)
Definition quiet : wait := {| due := []; answered := true |}.

Definition run_timer (w : world) (i : nat) : world :=
  match timers w !! i with
  | Some (_, s, key) => expire s key w
  | None => w
  end.

Definition run_due (l : list nat) (w : world) : world := fold_left run_timer l w.

(** [await this.refreshChannel(...)] and [await this.refreshGuild(...)]
    inside [get]: [refresh] is the completed call, [q] its query. The timers
    that are due run while the query is out; they change the caches only and
    the query reads the table only, so they are run first here. A rejected
    query rejects the call before it has touched the cache. *)
Definition reload (e : wait) (q : statement) (refresh : world -> world)
    (w : world) : completion unit * world :=
  let w := run_due (due e) w in
  if answered e then (Normal tt, refresh w) else (Throw Rejected, issue q w).

(** [get(channelId, guildId)]; [e1] is the wait for the channel and [e2]
    the wait for the guild, when the scope is not cached. Between the test
    [has(...)] and the last line there is no wait but these two. *)
Definition get (e1 e2 : wait) (channelId guildId : string) (w : world)
    : completion (Collection.t Feature) * world :=
  let '(loaded, w) :=
    match channelCache w !! channelId with
    | None =>
        reload e1 (SelectChannels (String "%" (channelId +:+ "%")))
          (refreshChannel channelId) w
    | Some _ => (Normal tt, w)
    end in
  match loaded with
  | Throw err => (Throw err, w)
  | Normal _ =>
      let '(loaded, w) :=
        match guildCache w !! guildId with
        | None => reload e2 (SelectGlobal guildId) (refreshGuild guildId) w
        | Some _ => (Normal tt, w)
        end in
      match loaded with
      | Throw err => (Throw err, w)
      | Normal _ =>
          match channelCache w !! channelId, guildCache w !! guildId with
          | Some forChannel, Some forGuild =>
              (Normal (Collection.sort by_id
                         (Collection.concat forChannel forGuild)), w)
          | _, _ => (Throw TypeError, w)
          end
      end
  end.

(** The loop of [getGuildOverview] over the objects; [res] are the chunks
    pushed so far and [text] the chunk being filled. *)
Fixpoint overview_loop (objects : list Feature) (res : list string)
    (text : string) : list string * string :=
  match objects with
  | [] => (res, text)
  | object :: objects' =>
      let info := getOverview object in
      if (String.length text + String.length info <? 2000)%nat
      then overview_loop objects' res (text +:+ info)
      else overview_loop objects' (res ++ [text]) info
  end.

(** [getGuildOverview(guildId)]; [None] is [null]. *)
Definition getGuildOverview (guildId : string) (w : world)
    : option (list string) * world :=
  let '(objects, w) := getAll guildId w in
  if Nat.eqb (Collection.size objects) 0 then (None, w)
  else
    let '(res, text) := overview_loop (Collection.values objects) [] EmptyString in
    (Some (if Str.truthy text then res ++ [text] else res), w).

Definition with_id (this : Feature) (i : Z) : Feature :=
  {| id := Some i; trigger := trigger this; global := global this;
     gid := gid this; channels := channels this; extra := extra this |}.

(** The loop [for (const channel of this.channels)] at the end of [save]. *)
Fixpoint save_channels (this : Feature) (key : Z) (chans : list string)
    (w : world) : world :=
  match chans with
  | [] => w
  | channel :: chans' =>
      match channelCache w !! channel with
      | None => save_channels this key chans' w
      | Some items =>
          save_channels this key chans'
            (with_channelCache
               (<[channel := Collection.set items key this]> (channelCache w)) w)
      end
  end.

(** The second half of [save], from [if (this.global)] on; [key] is
    [this.id]. *)
Definition save_cache (this : Feature) (key : Z) (w : world) : world :=
  if global this then
    match guildCache w !! gid this with
    | None => w
    | Some items =>
        with_guildCache
          (<[gid this := Collection.set items key this]> (guildCache w)) w
    end
  else save_channels this key (channels this) w.

(** [this.id] where it is truthy: unset and 0 are falsy. *)
Definition truthy_id (i : option Z) : option Z :=
  match i with
  | Some z => if z =? 0 then None else Some z
  | None => None
  end.

(** [save()]: the answer is [this] after the call, whose [id] is the value
    returned. *)
Definition save (this : Feature) (w : world) : completion Feature * world :=
  match truthy_id (id this) with
  | Some key =>
      let data := serialize this in
      if negb (Nat.eqb (length data) (length columns))
      then (Throw (Thrown "Unable to update, lengths differ!"), w)
      else
        let data := data ++ [VNumber key] in
        let w := issue (Update data) w in
        match run_update data (table w) with
        | None => (Throw Rejected, w)
        | Some t => (Normal this, save_cache this key (with_table t w))
        end
  | None =>
      let w := issue (Insert (serialize this)) w in
      match run_insert (serialize this) (table w) with
      | None => (Throw Rejected, w)
      | Some (insertId, t) =>
          let this := with_id this insertId in
          (Normal this, save_cache this insertId (with_table t w))
      end
  end.

(** [collection.delete(this.id)]; an unset id is the key of no entry. *)
Definition delete_id (items : Collection.t Feature) (key : option Z)
    : Collection.t Feature :=
  match key with
  | Some k => Collection.delete items k
  | None => items
  end.

(** The loop [for (const channel of this.channels)] of [remove]. *)
Fixpoint remove_channels (this : Feature) (chans : list string) (w : world)
    : world :=
  match chans with
  | [] => w
  | channel :: chans' =>
      match channelCache w !! channel with
      | Some items =>
          remove_channels this chans'
            (with_channelCache
               (<[channel := delete_id items (id this)]> (channelCache w)) w)
      | None => remove_channels this chans' w
      end
  end.

(** The second half of [remove], from [if (this.global)] on. *)
Definition remove_cache (this : Feature) (w : world) : world :=
  if global this then
    match guildCache w !! gid this with
    | Some items =>
        with_guildCache
          (<[gid this := delete_id items (id this)]> (guildCache w)) w
    | None => w
    end
  else remove_channels this (channels this) w.

(** [DELETE FROM ... WHERE id = ?] bound to [this.id]: the rows of that id
    go; an unset id is bound as NULL, which is the id of no row. *)
Definition delete_rows (key : option Z) (t : list (Row Extra)) : list (Row Extra) :=
  match key with
  | Some k => filter (fun r => row_id r ≠ k) t
  | None => t
  end.

(** [remove()]; the statement goes through [Database.instance.query], which
    is taken to succeed. *)
Definition remove (this : Feature) (w : world) : world :=
  remove_cache this (with_table (delete_rows (id this) (table w)) w).

(** Modelled from the spec: [getByID] asks [Database.instance.query] of
    [../bot/Database.js], not among the sources, for the row of an id; the
    answer is taken to be the first such row, or nothing ([null]) when there
    is none. *)
Definition getByID (i : Z) (w : world) : option Feature :=
  fromData <$> head (filter (fun r => row_id r = i) (table w)).

End Kind.
End Feature.

(** ** Validation of a trigger *)

Module TriggerResult.
Record t : Type := {
  success : bool;
  message : option string;
  trigger : option Trigger
}.
End TriggerResult.

Module Validation.
Import Regex.
Local Open Scope regex_scope.

(** [triggerTypes] *)
Definition triggerTypes : list string := ["regex"; "include"; "match"; "phishing"].

(** [/(?<!\\)\//] *)
Definition slash_regex : regex := NotBehind "\" +> Lit "/".

Definition failure (message : string) : TriggerResult.t :=
  {| TriggerResult.success := false;
     TriggerResult.message := Some message;
     TriggerResult.trigger := None |}.

Definition usage : string := "Usage: <type> <trigger>".
Definition empty_trigger : string := "Empty triggers are not allowed".
Definition invalid_regex : string := "Invalid regex trigger".

(** [getTrigger(type, value)] *)
Definition getTrigger {R : JsRegExp} (type value : string)
    : completion TriggerResult.t :=
  if negb (Matcher.list_includes triggerTypes type) then Normal (failure usage)
  else if negb (Str.truthy value) then Normal (failure empty_trigger)
  else
    if String.eqb type "regex" then
      let parts := split slash_regex value in
      if (length parts <? 2)%nat
         || match parts with
            | first :: _ => negb (Nat.eqb (String.length first) 0)
            | [] => false
            end
      then Normal (failure invalid_regex)
      else
        let parts := tail parts in
        let content := default EmptyString (head parts) in
        let flags := head (tail parts) in
        match RegExp_new content flags with
        | None => Normal (failure invalid_regex)
        | Some _ =>
            Normal {| TriggerResult.success := true;
                      TriggerResult.trigger :=
                        Some {| type := type; content := content; flags := flags |};
                      TriggerResult.message := None |}
        end
    else
      Normal {| TriggerResult.success := true;
                TriggerResult.trigger :=
                  Some {| type := type; content := value; flags := None |};
                TriggerResult.message := None |}.

End Validation.

(** ** The parse of a phishing trigger as the specification words it *)

Module Worded.

(** Splits at the last [:] ("the first [:] from the right"): the text
    before it and the text after it; [None] when there is no [:]. *)
Fixpoint split_last_colon (s : string) : option (string * string) :=
  match s with
  | EmptyString => None
  | String c s' =>
      match split_last_colon s' with
      | Some (d, t) => Some (String c d, t)
      | None => if Ascii.eqb c ":" then Some (EmptyString, s') else None
      end
  end.

(** The domain part and the threshold text. *)
Definition split_content (content : string) : string * option string :=
  match split_last_colon content with
  | Some (d, t) => (d, Some t)
  | None => (content, None)
  end.

(** The lower-cased domain part. *)
Definition domain (content : string) : string :=
  Str.toLowerCase (fst (split_content content)).

End Worded.

(** ** Sample data *)

Module Sample.

(** A kind with one more column, the response text. *)
Definition decode (i : Z) (values : list sql_value) : option (Row string) :=
  match values with
  | [VString g; VString c; VNumber gl; VString ch; VString response] =>
      Some {| row_id := i; row_guildid := g;
              row_trigger := {| type := "include"; content := c; flags := None |};
              row_global := gl; row_channels := ch; row_extra := response |}
  | _ => None
  end.

Definition next_id (t : list (Row string)) : Z :=
  1 + fold_right Z.max 0 (row_id <$> t).

Definition responses : FeatureKind := {|
  Extra := string;
  tableName := "responses";
  columns := ["guildid"; "trigger"; "global"; "channels"; "response"];
  serialize := fun this =>
    [VString (gid this); VString (content (trigger this));
     VNumber (if global this then 1 else 0);
     VString (String.concat "," (channels this)); VString (extra this)];
  getOverview := fun this => extra this;
  run_insert := fun values t =>
    row ← decode (next_id t) values; Some (next_id t, t ++ [row]);
  run_update := fun values t => Some t
|}.

(** A kind whose [serialize] gives three values for two columns, on a
    database that fills the two placeholders with the first two values and
    drops the third. *)
Definition wide_kind : FeatureKind := {|
  Extra := unit;
  tableName := "wide";
  columns := ["guildid"; "trigger"];
  serialize := fun this =>
    [VString (gid this); VString (content (trigger this)); VNumber 1];
  getOverview := fun this => content (trigger this);
  run_insert := fun values t =>
    match values with
    | VString g :: VString c :: _ =>
        Some (1 + Z.of_nat (length t),
              t ++ [{| row_id := 1 + Z.of_nat (length t); row_guildid := g;
                       row_trigger := {| type := "include"; content := c; flags := None |};
                       row_global := 0; row_channels := EmptyString; row_extra := tt |}])
    | _ => None
    end;
  run_update := fun values t => Some t
|}.

(** An engine that takes any pattern with no flags or the flag [i], and
    whose [test] looks for the pattern as plain text. *)
Definition plain_text : JsRegExp :=
  {| RegExp_new := fun pattern flags =>
       match flags with
       | None => Some (fun subject => Str.includes subject pattern)
       | Some f =>
           if String.eqb f "i"
           then Some (fun subject =>
                        Str.includes (Str.toLowerCase subject) (Str.toLowerCase pattern))
           else if String.eqb f EmptyString then Some (fun subject => Str.includes subject pattern)
           else None
       end |}.

(** An engine that takes no pattern at all. *)
Definition no_patterns : JsRegExp := {| RegExp_new := fun _ _ => None |}.

Definition discord : Trigger :=
  {| type := "phishing"; content := "discord.com(gg):0.5"; flags := None |}.

Definition empty_world {E : Type} : World E :=
  {| table := []; issued := []; channelCache := ∅; guildCache := ∅;
     timers := [] |}.

Definition row (i : Z) (guild : string) (gl : Z) (chans response : string)
    : Row string :=
  {| row_id := i; row_guildid := guild;
     row_trigger := {| type := "include"; content := response; flags := None |};
     row_global := gl; row_channels := chans; row_extra := response |}.

(** Three rows, out of order: two of guild [g1], one of them global. *)
Definition rows : list (Row string) :=
  [row 2 "g1" 1 EmptyString "second"; row 1 "g1" 0 "c1,c2" "first";
   row 3 "g2" 1 EmptyString "other"].

(** Nothing cached yet. *)
Definition world : World string :=
  {| table := rows; issued := []; channelCache := ∅; guildCache := ∅;
     timers := [] |}.

(** Two snowflakes, the first a part of the second. *)
Definition old_channel : string := "75928847299117063".
Definition new_channel : string := "175928847299117063".

(** One record, of the channel [new_channel] only. *)
Definition snowflake_world : World string :=
  {| table := [row 1 "g1" 0 new_channel "hello"]; issued := [];
     channelCache := ∅; guildCache := ∅; timers := [] |}.

(** A record of the wide kind that was never saved. *)
Definition unsaved : ChatTriggeredFeature unit :=
  {| id := None;
     trigger := {| type := "include"; content := "hello"; flags := None |};
     global := true; gid := "g1"; channels := []; extra := tt |}.

(** The same record with an id. *)
Definition saved : ChatTriggeredFeature unit :=
  {| id := Some 7;
     trigger := {| type := "include"; content := "hello"; flags := None |};
     global := true; gid := "g1"; channels := []; extra := tt |}.

End Sample.

(** ** Predicates of the statements *)

(** [p] occurs in [s]. *)
Definition occurs_in (p s : string) : Prop :=
  ∃ u v : string, s = u +:+ p +:+ v.

(** The capital letters among the code units below 256: A to Z, and the
    Latin-1 capitals from U+00C0 to U+00DE without the multiplication
    sign. *)
Definition capital (c : ascii) : bool :=
  let n := N_of_ascii c in
  ((65 <=? n) && (n <=? 90) || (192 <=? n) && (n <=? 222) && negb (n =? 215))%N.

(** The small letter of a capital stands 32 places after it. *)
Definition small_of (c : ascii) : ascii := ascii_of_N (N_of_ascii c + 32).

(** The same unit, or a capital and its small letter. *)
Definition same_letter (x y : ascii) : Prop :=
  x = y ∨ (capital x = true ∧ y = small_of x) ∨ (capital y = true ∧ x = small_of y).

(** The same text up to the case of the letters. *)
Fixpoint same_text (s t : string) : Prop :=
  match s, t with
  | EmptyString, EmptyString => True
  | String x s', String y t' => same_letter x y ∧ same_text s' t'
  | _, _ => False
  end.

(** No capital letter occurs in the text. *)
Fixpoint no_capital (s : string) : Prop :=
  match s with
  | EmptyString => True
  | String x s' => capital x = false ∧ no_capital s'
  end.

(** The four kinds of trigger. *)
Definition recognized (type : string) : Prop :=
  type = "regex" ∨ type = "include" ∨ type = "match" ∨ type = "phishing".

Definition accepted (type content : string) (flags : option string)
    : TriggerResult.t :=
  {| TriggerResult.success := true;
     TriggerResult.message := None;
     TriggerResult.trigger :=
       Some {| type := type; content := content; flags := flags |} |}.

(** The texts of a list put one after the other. *)
Fixpoint flatten (l : list string) : string :=
  match l with
  | [] => EmptyString
  | s :: l' => s +:+ flatten l'
  end.

(** A group of summaries that makes one chunk: shorter than 2000 units in
    all, or one summary alone. *)
Definition chunk_group (g : list string) : Prop :=
  (String.length (flatten g) < 2000)%nat ∨ ∃ s, g = [s].

(** The keys of a collection are distinct. *)
Definition distinct_keys {V : Type} (c : Collection.t V) : Prop :=
  NoDup (Collection.keys c).

(** Every record of a collection is held under its own id. *)
Definition keyed_by_id {E : Type} (c : Collection.t (ChatTriggeredFeature E))
    : Prop :=
  Forall (fun kv => id kv.2 = Some kv.1) c.

(** The id of the first record is below the id of the second. *)
Definition id_lt {E : Type} (a b : ChatTriggeredFeature E) : Prop :=
  ∃ x y : Z, id a = Some x ∧ id b = Some y ∧ x < y.

(** Every cached collection has distinct keys and holds each record under
    its own id. *)
Definition cache_ok {E : Type} (w : World E) : Prop :=
  (∀ key c, channelCache w !! key = Some c → distinct_keys c ∧ keyed_by_id c)
  ∧ (∀ key c, guildCache w !! key = Some c → distinct_keys c ∧ keyed_by_id c).

(** The order of two entries by key. *)
Definition key_le {E : Type} (x y : Z * ChatTriggeredFeature E) : Prop :=
  x.1 ≤ y.1.
Definition key_lt {E : Type} (x y : Z * ChatTriggeredFeature E) : Prop :=
  x.1 < y.1.

(** The effect of the second half of [save] on the two caches. *)
Definition written_through {E : Type} (this : ChatTriggeredFeature E)
    (key : Z) (w w' : World E) : Prop :=
  if global this then
    channelCache w' = channelCache w
    ∧ ∀ g : string,
        guildCache w' !! g
        = if decide (g = gid this)
          then (fun items => Collection.set items key this) <$> guildCache w !! g
          else guildCache w !! g
  else
    guildCache w' = guildCache w
    ∧ ∀ c : string,
        channelCache w' !! c
        = if decide (c ∈ channels this)
          then (fun items => Collection.set items key this) <$> channelCache w !! c
          else channelCache w !! c.



(** The record held under the id [k] in the cached scope [s] of a cache;
    [None] when the scope is not cached or holds no such id. *)
Definition held {E : Type}
    (cache : gmap string (Collection.t (ChatTriggeredFeature E)))
    (s : string) (k : Z) : option (ChatTriggeredFeature E) :=
  cache !! s ≫= fun items => Collection.get items k.

(** The same scopes are cached in both caches. *)
Definition same_scopes {E : Type}
    (c1 c2 : gmap string (Collection.t (ChatTriggeredFeature E))) : Prop :=
  ∀ s : string, is_Some (c1 !! s) ↔ is_Some (c2 !! s).

(** No cached collection holds the id [k]. *)
Definition nowhere_cached {E : Type} (k : Z) (w : World E) : Prop :=
  (∀ s, held (channelCache w) s k = None) ∧ (∀ s, held (guildCache w) s k = None).

(** The ids of the rows are distinct (the primary key). *)
Definition distinct_ids {E : Type} (t : list (Row E)) : Prop :=
  NoDup (row_id <$> t).

(** Every slash among the units [cs] comes right after a backslash; [b]
    are the units before [cs], nearest first. *)
Fixpoint slashes_escaped (b cs : list ascii) : Prop :=
  match cs with
  | [] => True
  | c :: cs' =>
      (c = "/"%char → head b = Some "\"%char) ∧ slashes_escaped (c :: b) cs'
  end.

(** No wildcard and no escape among the units. *)
Definition plain (p : list ascii) : Prop :=
  Forall (fun c => c ≠ "%"%char ∧ c ≠ "_"%char ∧ c ≠ "\"%char) p.

(** The state [e] is reached from the position [(b, a)] by passing over
    some units of [a]. *)
Definition reached (b a : list ascii) (e : Regex.mstate) : Prop :=
  ∃ cs, a = cs ++ Regex.after e ∧ Regex.before e = rev cs ++ b.

(** A pattern that passes over at least one unit whenever it matches. *)
Definition never_empty (ic : bool) (r : Regex.regex) : Prop :=
  ∀ b a e, Regex.match_here ic r b a = Some e →
           (length b < length (Regex.before e))%nat.

(** A pattern character [c] stands on every path through the pattern. *)
Fixpoint requires_unit (c : ascii) (r : Regex.regex) : bool :=
  match r with
  | Regex.Lit x => Ascii.eqb x c
  | Regex.Cat r1 r2 => requires_unit c r1 || requires_unit c r2
  | Regex.Group _ r' => requires_unit c r'
  | _ => false
  end.

(** Only the unit [c] itself matches the pattern character [c]. *)
Definition matched_exactly (ic : bool) (c : ascii) : Prop :=
  ∀ x, Regex.same_unit ic x c = true → x = c.

(** ** Facts about strings *)

Lemma startsWith_spec (s p : string) :
  Str.startsWith s p = true ↔ ∃ v, s = p +:+ v.
Proof.
  revert s. induction p as [|a p IH]; intros s; simpl.
  - split; [intros _; by exists s | done].
  - destruct s as [|b s].
    + split; [done | intros [v Hv]; discriminate].
    + rewrite andb_true_iff, IH. split.
      * intros [Hab [v ->]]. apply Ascii.eqb_eq in Hab as ->. by exists v.
      * intros [v Hv]. injection Hv as -> ->. split; [apply Ascii.eqb_refl | by exists v].
Qed.

Lemma includes_spec (s p : string) :
  Str.includes s p = true ↔ occurs_in p s.
Proof.
  unfold occurs_in. induction s as [|c s IH]; simpl.
  - rewrite orb_false_r, startsWith_spec. split.
    + intros [v Hv]. by exists EmptyString, v.
    + intros [u [v Huv]]. destruct u; simpl in Huv; [by exists v | discriminate].
  - rewrite orb_true_iff, startsWith_spec, IH. split.
    + intros [[v Hv] | [u [v Huv]]].
      * by exists EmptyString, v.
      * exists (String c u), v. simpl. by rewrite Huv.
    + intros [u [v Huv]]. destruct u as [|c' u]; simpl in Huv.
      * left. by exists v.
      * right. injection Huv as _ ->. by exists u, v.
Qed.

(** ** Lower-casing *)

Lemma lower_unit_capital (x : ascii) :
  Str.lower_unit x = if capital x then small_of x else x.
Proof. destruct x as [[] [] [] [] [] [] [] []]; vm_compute; reflexivity. Qed.

Lemma small_not_capital (x : ascii) :
  capital x = true → capital (small_of x) = false.
Proof.
  destruct x as [[] [] [] [] [] [] [] []]; vm_compute; intros H;
    first [reflexivity | discriminate H].
Qed.

Lemma small_of_back (x : ascii) :
  capital x = true → ascii_of_N (N_of_ascii (small_of x) - 32) = x.
Proof.
  destruct x as [[] [] [] [] [] [] [] []]; vm_compute; intros H;
    first [reflexivity | discriminate H].
Qed.

Lemma lower_unit_same (x y : ascii) :
  Str.lower_unit x = Str.lower_unit y ↔ same_letter x y.
Proof.
  rewrite !lower_unit_capital. unfold same_letter.
  destruct (capital x) eqn:Hx, (capital y) eqn:Hy; split.
  - intros H. left. rewrite <- (small_of_back x Hx), <- (small_of_back y Hy).
    by rewrite H.
  - intros [-> | [[_ ->] | [_ ->]]]; try done.
    + by rewrite small_not_capital in Hy.
    + by rewrite small_not_capital in Hx.
  - intros <-. right. by left.
  - intros [-> | [[_ ->] | [H _]]]; [congruence | done | congruence].
  - intros ->. right. by right.
  - intros [-> | [[H _] | [_ ->]]]; [congruence | congruence | done].
  - intros ->. by left.
  - intros [-> | [[H _] | [H _]]]; [done | congruence | congruence].
Qed.

Lemma toLowerCase_same (s t : string) :
  Str.toLowerCase s = Str.toLowerCase t ↔ same_text s t.
Proof.
  revert t. induction s as [|x s IH]; intros [|y t]; simpl; try done.
  rewrite <- IH, <- lower_unit_same. split; [by intros [= ? ?] | by intros [-> ->]].
Qed.

Lemma toLowerCase_folds (s : string) :
  same_text (Str.toLowerCase s) s ∧ no_capital (Str.toLowerCase s).
Proof.
  induction s as [|x s [IH1 IH2]]; simpl; [done|].
  rewrite lower_unit_capital. destruct (capital x) eqn:Hx.
  - split; [|by split; [apply small_not_capital|]].
    split; [|done]. right. by right.
  - split; [|done]. split; [by left | done].
Qed.

Lemma toLowerCase_app (s t : string) :
  Str.toLowerCase (s +:+ t) = Str.toLowerCase s +:+ Str.toLowerCase t.
Proof. induction s as [|x s IH]; [done|]. simpl. by rewrite IH. Qed.

Lemma toLowerCase_split (m a b : string) :
  Str.toLowerCase m = a +:+ b →
  ∃ u v, m = u +:+ v ∧ Str.toLowerCase u = a ∧ Str.toLowerCase v = b.
Proof.
  revert m. induction a as [|x a IH]; intros m H.
  - by exists EmptyString, m.
  - destruct m as [|y m]; [discriminate H|]. simpl in H. injection H as Hx H.
    destruct (IH m H) as (u & v & -> & Hu & Hv).
    exists (String y u), v. simpl. by rewrite Hx, Hu.
Qed.

(** The lower-cased content occurs in the lower-cased message exactly when
    the content occurs in the message up to the case of the letters. *)
Lemma occurs_in_lower (c message : string) :
  occurs_in (Str.toLowerCase c) (Str.toLowerCase message)
  ↔ ∃ u v w, message = u +:+ v +:+ w ∧ same_text v c.
Proof.
  unfold occurs_in. split.
  - intros (a & b & H).
    apply toLowerCase_split in H as (u & vw & -> & _ & H).
    apply toLowerCase_split in H as (v & w & -> & Hv & _).
    exists u, v, w. split; [done|]. by apply toLowerCase_same.
  - intros (u & v & w & -> & Hv). apply toLowerCase_same in Hv.
    exists (Str.toLowerCase u), (Str.toLowerCase w).
    by rewrite !toLowerCase_app, Hv.
Qed.

(** ** The matcher *)

Section MatcherFacts.
Context {R : JsRegExp}.

Lemma matches_include (c : string) (f : option string) (message : string) :
  Matcher.matches {| type := "include"; content := c; flags := f |} message
  = Normal (Str.includes (Str.toLowerCase message) (Str.toLowerCase c)).
Proof. unfold Matcher.matches; simpl. by destruct (Str.includes _ _). Qed.

Lemma matches_match (c : string) (f : option string) (message : string) :
  Matcher.matches {| type := "match"; content := c; flags := f |} message
  = Normal (String.eqb (Str.toLowerCase message) (Str.toLowerCase c)).
Proof. unfold Matcher.matches; simpl. by destruct (String.eqb _ _). Qed.

Lemma matches_phishing (c : string) (f : option string) (message : string) :
  Matcher.matches {| type := "phishing"; content := c; flags := f |} message
  = Normal (Matcher.phishing c message).
Proof. reflexivity. Qed.

(** C1: the phishing trigger [discord.com(gg):0.5] does not fire on a link
    to [discord.gg] (an allowed alternate extension), fires on a link to
    [discord.net] (same main part, extension not allowed), fires on a link to
    [discrod.com] (the Dice similarity of "discord" and "discrod" is 0.5, the
    threshold), and does not fire on a link to [support.discord.com] (a
    subdomain with an allowed extension); with or without the word "visit"
    before the link. *)
Theorem C1_phishing_discord :
  let t := Sample.discord in
  (Matcher.matches t "visit https://discord.gg/x" = Normal false
   ∧ Matcher.matches t "https://discord.gg/x" = Normal false)
  ∧ (Matcher.matches t "visit https://discord.net/x" = Normal true
     ∧ Matcher.matches t "https://discord.net/x" = Normal true)
  ∧ (Matcher.matches t "visit https://discrod.com/x" = Normal true
     ∧ Matcher.matches t "https://discrod.com/x" = Normal true
     ∧ StringSimilarity.compareTwoStrings "discord" "discrod" = Num.half
     ∧ Num.parseFloat (Some "0.5") = Num.half
     ∧ Num.ge Num.half Num.half = true)
  ∧ (Matcher.matches t "visit https://support.discord.com/x" = Normal false
     ∧ Matcher.matches t "https://support.discord.com/x" = Normal false).
Proof.
  cbv zeta. unfold Sample.discord. rewrite !matches_phishing.
  repeat split; vm_compute; reflexivity.
Qed.

(** C9: an [include] trigger matches exactly when the lower-cased message
    contains the lower-cased trigger content, and a [match] trigger exactly
    when the two lower-cased texts are equal; neither raises an error.
    Lower-casing turns every capital letter into its small letter and
    leaves every other unit as it is, so that an [include] trigger matches
    exactly when the content occurs in the message up to the case of the
    letters, and a [match] trigger exactly when the message is the content
    up to the case of the letters. *)
Theorem C9_include_and_match (c : string) (f : option string) (message : string) :
  (∃ b : bool,
     Matcher.matches {| type := "include"; content := c; flags := f |} message
     = Normal b
     ∧ (b = true ↔ occurs_in (Str.toLowerCase c) (Str.toLowerCase message))
     ∧ (b = true ↔ ∃ u v w, message = u +:+ v +:+ w ∧ same_text v c))
  ∧ (∃ b : bool,
       Matcher.matches {| type := "match"; content := c; flags := f |} message
       = Normal b
       ∧ (b = true ↔ Str.toLowerCase message = Str.toLowerCase c)
       ∧ (b = true ↔ same_text message c))
  ∧ (same_text (Str.toLowerCase message) message
     ∧ no_capital (Str.toLowerCase message))
  ∧ (same_text (Str.toLowerCase c) c ∧ no_capital (Str.toLowerCase c)).
Proof.
  split; [|split].
  - eexists. split; [apply matches_include|]. split; [apply includes_spec|].
    by rewrite includes_spec, occurs_in_lower.
  - eexists. split; [apply matches_match|]. split; [apply String.eqb_eq|].
    by rewrite String.eqb_eq, toLowerCase_same.
  - split; apply toLowerCase_folds.
Qed.

(** C10: a trigger whose type is none of the four kinds matches no message,
    and [matches] ends normally. *)
Theorem C10_unknown_type (t : Trigger) (message : string) :
  Matcher.list_includes Validation.triggerTypes (type t) = false →
  Matcher.matches t message = Normal false.
Proof.
  unfold Matcher.list_includes, Validation.triggerTypes. simpl.
  rewrite !orb_false_iff. intros (Hr & Hi & Hm & Hp & _).
  unfold Matcher.matches.
  by rewrite Hi, Hm, Hr, Hp.
Qed.

End MatcherFacts.

(** C9 at texts that differ in case: the content [HeLLo] is found in
    [Say hELLO there], and the message [hEllO] is the content [HeLLo]. *)
Lemma C9_include_and_match_witness :
  Matcher.matches (R := Sample.no_patterns)
    {| type := "include"; content := "HeLLo"; flags := None |} "Say hELLO there"
  = Normal true
  ∧ Matcher.matches (R := Sample.no_patterns)
      {| type := "match"; content := "HeLLo"; flags := None |} "hEllO"
    = Normal true.
Proof.
  split.
  - destruct (C9_include_and_match (R := Sample.no_patterns) "HeLLo" None
                "Say hELLO there") as [(b & Hm & _ & Hiff) _].
    rewrite Hm. f_equal. apply Hiff. exists "Say ", "hELLO", " there".
    split; [reflexivity|]. simpl.
    repeat split; first [by left | right; left; by split | right; right; by split].
  - destruct (C9_include_and_match (R := Sample.no_patterns) "HeLLo" None "hEllO")
      as (_ & (b & Hm & _ & Hiff) & _).
    rewrite Hm. f_equal. apply Hiff. simpl.
    repeat split; first [by left | right; left; by split | right; right; by split].
Defined.

(** C10 at a trigger of the unknown type [exact]. *)
Lemma C10_unknown_type_witness :
  Matcher.matches (R := Sample.no_patterns)
    {| type := "exact"; content := "hello"; flags := None |} "hello"
  = Normal false.
Proof.
  apply (C10_unknown_type (R := Sample.no_patterns)). reflexivity.
Defined.

(** ** The parse of a phishing trigger *)

Lemma split_unit_nonempty (sep : ascii) (s : string) :
  Str.split_unit sep s ≠ [].
Proof.
  destruct s as [|c s]; simpl; [done|].
  destruct (Ascii.eqb c sep); [done|]. by destruct (Str.split_unit sep s).
Qed.

Lemma split_unit_join (sep : ascii) (s : string) :
  String.concat (String sep EmptyString) (Str.split_unit sep s) = s.
Proof.
  induction s as [|c s IH]; [done|]. simpl.
  pose proof (split_unit_nonempty sep s) as Hne.
  destruct (Ascii.eqb_spec c sep) as [->|Hc];
    destruct (Str.split_unit sep s) as [|p ps]; try done.
  - simpl in *. by rewrite IH.
  - destruct ps; simpl in *; by rewrite <- IH.
Qed.

Lemma split_unit_clean (sep : ascii) (s : string) :
  Forall (fun p => Str.has_unit sep p = false) (Str.split_unit sep s).
Proof.
  induction s as [|c s IH]; simpl; [by constructor|].
  destruct (Ascii.eqb_spec c sep) as [->|Hc].
  - by constructor.
  - destruct (Str.split_unit sep s) as [|p ps]; simpl.
    + constructor; [|done]. simpl. by apply Ascii.eqb_neq in Hc as ->.
    + inversion IH; subst. constructor; [|done].
      simpl. by apply Ascii.eqb_neq in Hc as ->.
Qed.

(** The two pieces [split_content] binds: the domain part is the text up
    to the first [:], the threshold the text between the first [:] and the
    second (or the end). *)
Lemma split_content_spec (content : string) :
  let '(domain, similarity) := Matcher.split_content content in
  Str.has_unit ":" domain = false
  ∧ match similarity with
    | None => content = domain
    | Some t =>
        Str.has_unit ":" t = false
        ∧ (content = domain +:+ ":" +:+ t
           ∨ ∃ rest, content = domain +:+ ":" +:+ t +:+ ":" +:+ rest)
    end.
Proof.
  unfold Matcher.split_content.
  pose proof (split_unit_join ":" content) as Hj.
  pose proof (split_unit_clean ":" content) as Hc.
  destruct (Str.split_unit ":" content) as [|d [|t rest]].
  - simpl in Hj. by subst.
  - simpl in Hj. inversion Hc; subst. done.
  - inversion Hc as [|? ? Hd Hc']; subst. inversion Hc' as [|? ? Ht _]; subst.
    split; [done|]. split; [done|].
    destruct rest as [|r rest].
    + by left.
    + right. by exists (String.concat ":" (r :: rest)).
Qed.

Lemma phishing_parsed_no_domain (domain : string) (similarity : Num.number)
    (message : string) :
  Regex.exec_string false Matcher.domain_regex domain = None →
  Matcher.phishing_parsed domain similarity message = false.
Proof. unfold Matcher.phishing_parsed. by intros ->. Qed.

(** C4, as amended: the content of a phishing trigger is cut at every [:];
    the text up to the first [:] is the domain part and the text between
    the first and the second [:] (or the end) is the threshold, whatever
    follows a second [:] being ignored; 0.5 is the threshold when that
    text is absent or no number; and when the lower-cased domain part does
    not match the pattern, the trigger fires on no message. *)
Theorem C4_phishing_parse {R : JsRegExp} (c : string) (f : option string) :
  let t := {| type := "phishing"; content := c; flags := f |} in
  ∃ (domain : string) (similarity : option string),
    (Str.has_unit ":" domain = false
     ∧ match similarity with
       | None => c = domain
       | Some s =>
           Str.has_unit ":" s = false
           ∧ (c = domain +:+ ":" +:+ s
              ∨ ∃ rest, c = domain +:+ ":" +:+ s +:+ ":" +:+ rest)
       end)
    ∧ (∀ message,
         Matcher.matches t message
         = Normal (Matcher.phishing_parsed (Str.toLowerCase domain)
                     (Num.or_half (Num.parseFloat similarity)) message))
    ∧ (similarity = None ∨ Num.parseFloat similarity = Num.NaN →
       Num.or_half (Num.parseFloat similarity) = Num.half)
    ∧ (Regex.exec_string false Matcher.domain_regex (Str.toLowerCase domain) = None →
       ∀ message, Matcher.matches t message = Normal false).
Proof.
  intros t. pose proof (split_content_spec c) as Hs.
  assert (Hm : ∀ message, Matcher.matches t message
    = Normal (Matcher.phishing_parsed
                (Str.toLowerCase (Matcher.split_content c).1)
                (Num.or_half (Num.parseFloat (Matcher.split_content c).2))
                message)).
  { intros message. unfold t. rewrite matches_phishing. unfold Matcher.phishing.
    by destruct (Matcher.split_content c). }
  destruct (Matcher.split_content c) as [domain similarity]; simpl in Hm.
  exists domain, similarity. split; [exact Hs|]. split; [exact Hm|]. split.
  - intros [-> | ->]; reflexivity.
  - intros Hd message. rewrite Hm. by rewrite phishing_parsed_no_domain.
Qed.

(** C4, as worded, fails: the content [a.b:c/d:0.5] cut at its last [:]
    leaves the domain part [a.b:c/d], which does not match the pattern, yet
    the trigger fires on a link to [a.x], because the code takes [a.b], the
    text up to the first [:], for the domain part. *)
Lemma C4_last_colon_counterexample :
  ¬ (∀ (R : JsRegExp) (c : string) (f : option string) (message : string),
       Regex.exec_string false Matcher.domain_regex (Worded.domain c) = None →
       Matcher.matches {| type := "phishing"; content := c; flags := f |} message
       = Normal false).
Proof.
  intros H.
  specialize (H Sample.no_patterns "a.b:c/d:0.5" None "https://a.x/").
  assert (Hd : Regex.exec_string false Matcher.domain_regex
                 (Worded.domain "a.b:c/d:0.5") = None) by (vm_compute; reflexivity).
  specialize (H Hd). vm_compute in H. discriminate H.
Qed.

(** The two parses also disagree on the threshold: for [discord.com:0.9:0.1]
    the code reads 0.9 and does not fire on a link to [discrod.com], where
    the last [:] would give the threshold 0.1. *)
Lemma last_colon_threshold_differs :
  Matcher.split_content "discord.com:0.9:0.1" = ("discord.com", Some "0.9")
  ∧ Worded.split_content "discord.com:0.9:0.1" = ("discord.com:0.9", Some "0.1")
  ∧ Matcher.phishing "discord.com:0.9:0.1" "https://discrod.com/x" = false.
Proof. repeat split; vm_compute; reflexivity. Qed.

Lemma split_last_colon_none (s : string) :
  Str.has_unit ":" s = false → Worded.split_last_colon s = None.
Proof.
  induction s as [|c s IH]; simpl; [done|].
  rewrite orb_false_iff. intros [Hc Hs]. by rewrite IH, Hc.
Qed.

Lemma split_last_colon_one (d t : string) :
  Str.has_unit ":" t = false →
  Worded.split_last_colon (d +:+ ":" +:+ t) = Some (d, t).
Proof.
  intros Ht. induction d as [|c d IH]; simpl.
  - by rewrite split_last_colon_none.
  - by rewrite IH.
Qed.

(** A content with at most one [:] is cut the same way by both. *)
Lemma worded_split_agrees (c : string) :
  (Matcher.split_content c).2 = None
  ∨ (∃ s, (Matcher.split_content c).2 = Some s
          ∧ c = (Matcher.split_content c).1 +:+ ":" +:+ s) →
  Worded.split_content c = Matcher.split_content c.
Proof.
  pose proof (split_content_spec c) as Hs.
  destruct (Matcher.split_content c) as [domain [s|]]; simpl.
  - destruct Hs as (Hd & Ht & _). intros [? | (s' & [= <-] & Hc)]; [done|].
    unfold Worded.split_content. rewrite Hc at 1.
    by rewrite split_last_colon_one.
  - destruct Hs as [Hd <-]. intros _.
    unfold Worded.split_content. by rewrite split_last_colon_none.
Qed.

(** ** Validation *)





Lemma truthy_false (s : string) :
  Str.truthy s = false ↔ s = EmptyString.
Proof. by destruct s. Qed.

Lemma recognized_includes (type : string) :
  Matcher.list_includes Validation.triggerTypes type = true ↔ recognized type.
Proof.
  unfold Matcher.list_includes, Validation.triggerTypes, recognized. simpl.
  rewrite !orb_true_iff, !String.eqb_eq. intuition discriminate.
Qed.

(** The answer of [getTrigger] is the one just computed. *)
Ltac answered := eexists; split; [reflexivity|].


(** The examples of the specification: a regex value without a leading
    slash, a flag the engine refuses, and an empty value. *)
Lemma getTrigger_examples :
  Validation.getTrigger (R := Sample.plain_text) "regex" "abc"
  = Normal (Validation.failure Validation.invalid_regex)
  ∧ Validation.getTrigger (R := Sample.plain_text) "regex" "/abc/z"
    = Normal (Validation.failure Validation.invalid_regex)
  ∧ Validation.getTrigger (R := Sample.plain_text) "include" EmptyString
    = Normal (Validation.failure Validation.empty_trigger)
  ∧ Validation.getTrigger (R := Sample.plain_text) "regex" "/foo\/.*bar/i"
    = Normal (accepted "regex" "foo\/.*bar" (Some "i"))
  ∧ Validation.getTrigger (R := Sample.plain_text) "regex" "\/abc/"
    = Normal (Validation.failure Validation.invalid_regex)
  ∧ Validation.getTrigger (R := Sample.plain_text) "words" "abc"
    = Normal (Validation.failure Validation.usage).
Proof. repeat split; vm_compute; reflexivity. Qed.

(** ** The overview of a guild *)

Lemma append_cons (a : ascii) (s t : string) :
  String a s +:+ t = String a (s +:+ t).
Proof. reflexivity. Qed.

Lemma append_empty_r (s : string) : s +:+ EmptyString = s.
Proof. induction s as [|a s IH]; [done | by rewrite append_cons, IH]. Qed.

Lemma append_assoc (s t u : string) : (s +:+ t) +:+ u = s +:+ t +:+ u.
Proof. induction s as [|a s IH]; [done | by rewrite !append_cons, IH]. Qed.

Lemma length_append (s t : string) :
  String.length (s +:+ t) = (String.length s + String.length t)%nat.
Proof. induction s as [|a s IH]; [done | by rewrite append_cons; simpl; rewrite IH]. Qed.

Lemma flatten_app (l1 l2 : list string) :
  flatten (l1 ++ l2) = flatten l1 +:+ flatten l2.
Proof. induction l1; simpl; [done|]. by rewrite IHl1, append_assoc. Qed.

Lemma flatten_short (l : list string) (n : nat) :
  (0 < n)%nat →
  Forall (fun c => (String.length c < n)%nat) l →
  (n ≤ String.length (flatten l))%nat → (1 < length l)%nat.
Proof.
  intros Hpos Hl Hn. destruct l as [|c [|d l]]; simpl in *; [lia| |lia].
  inversion Hl; subst. rewrite append_empty_r in Hn. lia.
Qed.

Section OverviewFacts.
Context {K : FeatureKind}.

Lemma overview_loop_spec (objects : list (ChatTriggeredFeature Extra)) :
  ∀ (res : list string) (text : string),
    Forall (fun o => (String.length (getOverview o) < 2000)%nat) objects →
    (String.length text < 2000)%nat →
    Forall (fun c => (String.length c < 2000)%nat) res →
    (String.length (Feature.overview_loop objects res text).2 < 2000)%nat
    ∧ Forall (fun c => (String.length c < 2000)%nat)
        (Feature.overview_loop objects res text).1
    ∧ flatten (Feature.overview_loop objects res text).1
      +:+ (Feature.overview_loop objects res text).2
      = flatten res +:+ text +:+ flatten (getOverview <$> objects).
Proof.
  induction objects as [|o objects IH]; intros res text Ho Ht Hr; simpl.
  - by rewrite append_empty_r.
  - inversion Ho as [|? ? Hinfo Ho']; subst.
    destruct (String.length text + String.length (getOverview o) <? 2000)%nat eqn:E.
    + apply Nat.ltb_lt in E.
      destruct (IH res (text +:+ getOverview o)) as (H1 & H2 & H3);
        [done | rewrite length_append; lia | done |].
      split; [done|]. split; [done|]. by rewrite H3, append_assoc.
    + destruct (IH (res ++ [text]) (getOverview o)) as (H1 & H2 & H3);
        [done | done | |].
      { apply Forall_app. split; [done|]. by constructor. }
      split; [done|]. split; [done|].
      rewrite H3, flatten_app. simpl. by rewrite append_empty_r, append_assoc.
Qed.

Lemma set_nonempty {V : Type} (c : Collection.t V) (k : Z) (v : V) :
  Collection.set c k v ≠ [].
Proof. destruct c as [|[k' v'] c]; simpl; [done|]. by destruct (k' =? k). Qed.

Lemma collect_from_nonempty (result : list (Row Extra))
    (c : Collection.t (ChatTriggeredFeature Extra)) :
  c ≠ [] →
  fold_left (fun newItems res =>
               Collection.set newItems (row_id res) (Feature.fromData res))
    result c ≠ [].
Proof.
  revert c. induction result as [|r result IH]; intros c Hc; simpl; [done|].
  apply IH, set_nonempty.
Qed.

Lemma collect_empty (result : list (Row Extra)) :
  Feature.collect result = [] ↔ result = [].
Proof.
  split; [|by intros ->].
  destruct result as [|r result]; [done|]. unfold Feature.collect. simpl.
  intros H. by apply collect_from_nonempty in H.
Qed.

Lemma insert_by_nonempty {V : Type} (cmp : V → V → Z) (x : Z * V)
    (c : Collection.t V) :
  Collection.insert_by cmp x c ≠ [].
Proof. destruct c; simpl; [done|]. by destruct (_ <=? _). Qed.

Lemma sort_empty {V : Type} (cmp : V → V → Z) (c : Collection.t V) :
  Collection.sort cmp c = [] ↔ c = [].
Proof.
  split; [|by intros ->]. destruct c; [done|]. unfold Collection.sort. simpl.
  intros H. by apply insert_by_nonempty in H.
Qed.

(** C8: [getGuildOverview] answers [null] for a guild without records;
    otherwise, when every summary is shorter than 2000 units, it answers
    chunks that put one after the other are the summaries in the order of the
    records, every chunk shorter than 2000 units, and more than one chunk
    when the summaries add up to more than 2000 units. *)
Theorem C8_guild_overview (guildId : string) (w : World Extra) :
  let rows :=
    filter (fun r => String.eqb (row_guildid r) guildId = true) (table w) in
  let objects := Collection.values (Feature.getAll guildId w).1 in
  Forall (fun o => (String.length (getOverview o) < 2000)%nat) objects →
  (rows = [] → (Feature.getGuildOverview guildId w).1 = None)
  ∧ (rows ≠ [] →
     ∃ chunks : list string,
       (Feature.getGuildOverview guildId w).1 = Some chunks
       ∧ flatten chunks = flatten (getOverview <$> objects)
       ∧ Forall (fun c => (String.length c < 2000)%nat) chunks
       ∧ ((2000 < String.length (flatten (getOverview <$> objects)))%nat →
          (1 < length chunks)%nat)).
Proof.
  intros rows objects Hfit.
  unfold Feature.getGuildOverview, objects, Feature.getAll in *.
  simpl in *. fold rows in Hfit |- *.
  set (sorted := Collection.sort Feature.by_id (Feature.collect rows)) in *.
  assert (Hsize : Collection.size sorted = 0%nat ↔ rows = []).
  { unfold Collection.size. rewrite length_zero_iff_nil.
    unfold sorted. etrans; [apply sort_empty | apply collect_empty]. }
  split.
  - intros Hrows. apply Hsize in Hrows. by rewrite Hrows.
  - intros Hrows.
    destruct (Nat.eqb_spec (Collection.size sorted) 0) as [Hz|_];
      [by apply Hsize in Hz|].
    destruct (overview_loop_spec (Collection.values sorted) [] EmptyString)
      as (Htext & Hres & Hcat); [done | simpl; lia | constructor |].
    destruct (Feature.overview_loop (Collection.values sorted) [] EmptyString)
      as [res text]; simpl in *.
    change (flatten res +:+ text
            = flatten (getOverview <$> Collection.values sorted)) in Hcat.
    eexists. split; [reflexivity|].
    assert (Hflat : flatten (if Str.truthy text then res ++ [text] else res)
                    = flatten (getOverview <$> Collection.values sorted)).
    { rewrite <- Hcat. destruct text; simpl.
      - by rewrite append_empty_r.
      - rewrite flatten_app. simpl. by rewrite append_empty_r. }
    assert (Hall : Forall (fun c => (String.length c < 2000)%nat)
                     (if Str.truthy text then res ++ [text] else res)).
    { destruct (Str.truthy text); [|done].
      apply Forall_app. split; [done|]. by constructor. }
    split; [done|]. split; [done|].
    intros Htotal. apply (flatten_short _ 2000); [lia | done |]. rewrite Hflat. lia.
Qed.

End OverviewFacts.

(** ** Collections *)

Section CollectionFacts.
Context {V : Type}.
Implicit Types (c : Collection.t V) (k : Z) (v : V).

Lemma get_set c k v k' :
  Collection.get (Collection.set c k v) k'
  = if decide (k = k') then Some v else Collection.get c k'.
Proof.
  induction c as [|[k0 v0] c IH]; simpl.
  - destruct (Z.eqb_spec k k'); by case_decide.
  - destruct (Z.eqb_spec k0 k) as [->|Hk0]; simpl.
    + destruct (Z.eqb_spec k k'); by case_decide.
    + rewrite IH. destruct (Z.eqb_spec k0 k'); [|done].
      case_decide; [congruence | done].
Qed.



Lemma elem_keys_get c k :
  k ∈ Collection.keys c ↔ is_Some (Collection.get c k).
Proof.
  unfold Collection.keys. induction c as [|[k0 v0] c IH]; simpl.
  - rewrite elem_of_nil. split; [done | by intros [? ?]].
  - rewrite elem_of_cons, IH. destruct (Z.eqb_spec k0 k) as [->|Hne].
    + split; eauto.
    + split; [intros [?|?]; [congruence | done] | by right].
Qed.

Lemma elem_keys_set c k v x :
  x ∈ Collection.keys (Collection.set c k v) ↔ x = k ∨ x ∈ Collection.keys c.
Proof.
  rewrite !elem_keys_get, get_set. case_decide; subst.
  - split; eauto.
  - split; [by right | intros [?|?]; [congruence | done]].
Qed.

Lemma distinct_keys_set c k v :
  distinct_keys c → distinct_keys (Collection.set c k v).
Proof.
  unfold distinct_keys.
  induction c as [|[k0 v0] c IH]; simpl; intros Hc.
  - apply NoDup_singleton.
  - apply NoDup_cons in Hc as [Hk0 Hc].
    destruct (Z.eqb_spec k0 k) as [->|Hne]; simpl.
    + by apply NoDup_cons.
    + apply NoDup_cons. split; [|by apply IH].
      fold (Collection.keys (Collection.set c k v)).
      rewrite elem_keys_set. intros [?|?]; [congruence | done].
Qed.

Lemma set_set c k v :
  Collection.set (Collection.set c k v) k v = Collection.set c k v.
Proof.
  induction c as [|[k0 v0] c IH]; simpl.
  - by rewrite Z.eqb_refl.
  - destruct (Z.eqb_spec k0 k) as [->|Hne]; simpl.
    + by rewrite Z.eqb_refl.
    + destruct (Z.eqb_spec k0 k); [done|]. by rewrite IH.
Qed.

Lemma Forall_set (P : Z * V → Prop) c k v :
  Forall P c → P (k, v) → Forall P (Collection.set c k v).
Proof.
  intros Hc Hkv. induction Hc as [|[k0 v0] c H0 Hc IH]; simpl.
  - by constructor.
  - destruct (k0 =? k); by constructor.
Qed.

Lemma distinct_keys_concat c other :
  distinct_keys c → distinct_keys (Collection.concat c other).
Proof.
  unfold Collection.concat. revert c.
  induction other as [|[k v] other IH]; intros c Hc; simpl; [done|].
  by apply IH, distinct_keys_set.
Qed.

Lemma Forall_concat (P : Z * V → Prop) c other :
  Forall P c → Forall P other → Forall P (Collection.concat c other).
Proof.
  unfold Collection.concat. revert c.
  induction other as [|[k v] other IH]; intros c Hc Ho; simpl; [done|].
  inversion Ho; subst. by apply IH; [apply Forall_set|].
Qed.

(** In the merge, an entry of [other] replaces the entry of [c] with the
    same key. *)
Lemma get_concat c other k :
  distinct_keys other →
  Collection.get (Collection.concat c other) k
  = match Collection.get other k with
    | Some v => Some v
    | None => Collection.get c k
    end.
Proof.
  unfold Collection.concat, distinct_keys. revert c.
  induction other as [|[k0 v0] other IH]; intros c Ho; simpl; [done|].
  apply NoDup_cons in Ho as [Hk0 Ho]. rewrite IH by done.
  rewrite get_set. destruct (Z.eqb_spec k0 k) as [->|Hne].
  - fold (Collection.keys other) in Hk0. rewrite elem_keys_get in Hk0.
    simpl in Hk0.
    destruct (Collection.get other k); [by destruct Hk0 | by case_decide].
  - by case_decide.
Qed.

Lemma elem_of_get c k v :
  distinct_keys c → (k, v) ∈ c ↔ Collection.get c k = Some v.
Proof.
  unfold distinct_keys.
  induction c as [|[k0 v0] c IH]; simpl; intros Hc.
  - rewrite elem_of_nil. split; done.
  - apply NoDup_cons in Hc as [Hk0 Hc]. rewrite elem_of_cons, IH by done.
    destruct (Z.eqb_spec k0 k) as [->|Hne].
    + split.
      * intros [[= <-]|Hin]; [done|]. exfalso. apply Hk0.
        fold (Collection.keys c). rewrite elem_keys_get. eauto.
      * intros [= <-]. by left.
    + split; [intros [[= ? ?]|?]; [congruence | done] | by right].
Qed.

Lemma get_Permutation c c' k :
  distinct_keys c → c ≡ₚ c' → Collection.get c k = Collection.get c' k.
Proof.
  intros Hc Hp. assert (Hc' : distinct_keys c').
  { unfold distinct_keys, Collection.keys in *. by rewrite <- Hp. }
  apply option_eq. intros v. rewrite <- !elem_of_get by done. by rewrite Hp.
Qed.

Lemma insert_by_Permutation (cmp : V → V → Z) (x : Z * V) c :
  Collection.insert_by cmp x c ≡ₚ x :: c.
Proof.
  induction c as [|y c IH]; simpl; [done|].
  destruct (_ <=? _); [done|]. rewrite IH. apply Permutation_swap.
Qed.

Lemma sort_Permutation (cmp : V → V → Z) c : Collection.sort cmp c ≡ₚ c.
Proof.
  unfold Collection.sort. induction c as [|x c IH]; simpl; [done|].
  by rewrite insert_by_Permutation, IH.
Qed.

End CollectionFacts.

(** ** The scoped cache *)

Section CacheFacts.
Context {K : FeatureKind}.
Implicit Types (c : Collection.t (ChatTriggeredFeature Extra)).
Implicit Types (w : World Extra).

Lemma insert_by_sorted (x : Z * ChatTriggeredFeature Extra) c :
  id x.2 = Some x.1 → keyed_by_id c →
  StronglySorted key_le c →
  StronglySorted key_le (Collection.insert_by Feature.by_id x c).
Proof.
  intros Hx Hc Hs. induction Hs as [|y c Hs IH Hy]; simpl.
  - repeat constructor.
  - inversion Hc as [|? ? Hyid Hc']; subst.
    unfold Feature.by_id at 1. rewrite Hx, Hyid.
    destruct (Z.leb_spec (x.1 - y.1) 0) as [Hle|Hgt].
    + constructor; [by constructor|]. constructor; [unfold key_le; lia|].
      eapply Forall_impl; [exact Hy|]. unfold key_le. intros; lia.
    + constructor; [by apply IH|].
      rewrite insert_by_Permutation. constructor; [unfold key_le; lia | done].
Qed.

Lemma sort_sorted c :
  keyed_by_id c → StronglySorted key_le (Collection.sort Feature.by_id c).
Proof.
  unfold Collection.sort. induction c as [|x c IH]; intros Hc; simpl.
  - constructor.
  - inversion Hc; subst. apply insert_by_sorted; [done | | by apply IH].
    unfold keyed_by_id.
    change (Forall (fun kv => id kv.2 = Some kv.1) (Collection.sort Feature.by_id c)).
    by rewrite sort_Permutation.
Qed.

Lemma sorted_strict c :
  StronglySorted key_le c → distinct_keys c → StronglySorted key_lt c.
Proof.
  unfold distinct_keys, Collection.keys.
  induction 1 as [|x c Hs IH Hx]; intros Hd; simpl in *; [constructor|].
  apply NoDup_cons in Hd as [Hx1 Hd]. constructor; [by apply IH|].
  apply Forall_forall. intros y Hy.
  assert (x.1 ≤ y.1) by exact (proj1 (Forall_forall _ _) Hx y Hy).
  assert (x.1 ≠ y.1).
  { intros Heq. apply Hx1. rewrite Heq. apply list_elem_of_fmap. by exists y. }
  unfold key_lt. lia.
Qed.

Lemma sorted_values c :
  StronglySorted key_lt c → keyed_by_id c →
  StronglySorted id_lt (Collection.values c).
Proof.
  unfold Collection.values.
  induction 1 as [|x c Hs IH Hx]; intros Hc; simpl; [constructor|].
  inversion Hc as [|? ? Hxid Hc']; subst. constructor; [by apply IH|].
  apply Forall_fmap. apply Forall_forall. intros y Hy.
  exists x.1, y.1. split; [done|]. split.
  - exact (proj1 (Forall_forall _ _) Hc' y Hy).
  - exact (proj1 (Forall_forall _ _) Hx y Hy).
Qed.

Lemma collect_ok (result : list (Row Extra)) :
  distinct_keys (Feature.collect result) ∧ keyed_by_id (Feature.collect result).
Proof.
  unfold Feature.collect.
  assert (H : ∀ c, distinct_keys c ∧ keyed_by_id c →
    distinct_keys (fold_left (fun newItems res =>
        Collection.set newItems (row_id res) (Feature.fromData res)) result c)
    ∧ keyed_by_id (fold_left (fun newItems res =>
        Collection.set newItems (row_id res) (Feature.fromData res)) result c)).
  { induction result as [|r result IH]; intros c [Hd Hk]; simpl; [done|].
    apply IH. split; [by apply distinct_keys_set|].
    by apply Forall_set. }
  apply H. split; [apply NoDup_nil_2 | constructor].
Qed.

End CacheFacts.

Section GetFacts.
Context {K : FeatureKind}.
Implicit Types (c : Collection.t (ChatTriggeredFeature Extra)).
Implicit Types (w : World Extra).

(** The merge of two well-formed collections, sorted. *)
Lemma sort_concat_spec c1 c2 :
  distinct_keys c1 → keyed_by_id c1 → distinct_keys c2 → keyed_by_id c2 →
  let result := Collection.sort Feature.by_id (Collection.concat c1 c2) in
  (∀ k, Collection.get result k
        = match Collection.get c2 k with
          | Some v => Some v
          | None => Collection.get c1 k
          end)
  ∧ StronglySorted id_lt (Collection.values result).
Proof.
  intros Hd1 Hk1 Hd2 Hk2 result.
  assert (Hd : distinct_keys (Collection.concat c1 c2))
    by by apply distinct_keys_concat.
  assert (Hk : keyed_by_id (Collection.concat c1 c2))
    by by apply Forall_concat.
  assert (Hp : result ≡ₚ Collection.concat c1 c2) by apply sort_Permutation.
  split.
  - intros k. rewrite <- get_concat by done. symmetry. by apply get_Permutation.
  - apply sorted_values.
    + apply sorted_strict; [by apply sort_sorted|].
      unfold distinct_keys, Collection.keys in *. by rewrite Hp.
    + unfold keyed_by_id in *. by rewrite Hp.
Qed.

(** When nothing runs during its waits and the queries are answered,
    [get] loads the channel scope and the guild scope from the table when,
    and only when, they are not cached, leaves both cached, and answers the
    records of the two scopes merged by key (a guild record replacing a
    channel record of the same key) in ascending order of their ids; the
    cache is taken to hold every record under its own id. *)
Lemma get_undisturbed (channelId guildId : string) (w : World Extra) :
  cache_ok w →
  let pattern := String "%" (channelId +:+ "%") in
  let forChannel :=
    match channelCache w !! channelId with
    | Some c => c
    | None =>
        Feature.collect
          (filter (fun r => Sql.LIKE (row_channels r) pattern = true) (table w))
    end in
  let forGuild :=
    match guildCache w !! guildId with
    | Some c => c
    | None =>
        Feature.collect
          (filter (fun r => String.eqb (row_guildid r) guildId = true
                            ∧ row_global r = 1) (table w))
    end in
  ∃ (result : Collection.t (ChatTriggeredFeature Extra)) (w' : World Extra),
    Feature.get Feature.quiet Feature.quiet channelId guildId w = (Normal result, w')
    ∧ channelCache w' !! channelId = Some forChannel
    ∧ guildCache w' !! guildId = Some forGuild
    ∧ issued w'
      = issued w
        ++ match channelCache w !! channelId with
           | Some _ => []
           | None => [SelectChannels pattern]
           end
        ++ match guildCache w !! guildId with
           | Some _ => []
           | None => [SelectGlobal guildId]
           end
    ∧ (∀ k, Collection.get result k
            = match Collection.get forGuild k with
              | Some v => Some v
              | None => Collection.get forChannel k
              end)
    ∧ StronglySorted id_lt (Collection.values result).
Proof.
  intros [Hch Hgu] pattern forChannel forGuild.
  assert (HfC : distinct_keys forChannel ∧ keyed_by_id forChannel).
  { unfold forChannel. destruct (channelCache w !! channelId) eqn:E;
      [by eapply Hch | apply collect_ok]. }
  assert (HfG : distinct_keys forGuild ∧ keyed_by_id forGuild).
  { unfold forGuild. destruct (guildCache w !! guildId) eqn:E;
      [by eapply Hgu | apply collect_ok]. }
  destruct HfC as [HdC HkC], HfG as [HdG HkG].
  destruct (sort_concat_spec forChannel forGuild HdC HkC HdG HkG) as [Hget Hsorted].
  exists (Collection.sort Feature.by_id (Collection.concat forChannel forGuild)).
  unfold Feature.get, forChannel, forGuild in *. clear forChannel forGuild.
  destruct (channelCache w !! channelId) as [c|] eqn:Ec;
    destruct (guildCache w !! guildId) as [g|] eqn:Eg; simpl;
    rewrite ?Ec, ?Eg, ?lookup_insert_eq; simpl;
    rewrite ?Ec, ?Eg, ?lookup_insert_eq;
    eexists; (split; [reflexivity|]); simpl;
    rewrite ?Ec, ?Eg, ?lookup_insert_eq, ?app_nil_r, <- ?app_assoc;
    repeat split; done.
Qed.

End GetFacts.

(** ** Saving *)

Section SaveFacts.
Context {K : FeatureKind}.
Implicit Types (this : ChatTriggeredFeature Extra) (w : World Extra).

Lemma save_channels_spec this (key : Z) (chans : list string) :
  ∀ w,
    guildCache (Feature.save_channels this key chans w) = guildCache w
    ∧ ∀ c : string,
        channelCache (Feature.save_channels this key chans w) !! c
        = if decide (c ∈ chans)
          then (fun items => Collection.set items key this) <$> channelCache w !! c
          else channelCache w !! c.
Proof.
  induction chans as [|channel chans IH]; intros w; simpl.
  - done.
  - destruct (channelCache w !! channel) as [items|] eqn:E.
    + destruct (IH (Feature.with_channelCache
                      (<[channel := Collection.set items key this]> (channelCache w)) w))
        as [Hg Hc].
      split; [by rewrite Hg|]. intros c. rewrite Hc. simpl.
      destruct (decide (c = channel)) as [->|Hne].
      * rewrite lookup_insert_eq, E. simpl. rewrite set_set.
        rewrite (decide_True (P := channel ∈ channel :: chans))
          by (apply elem_of_cons; by left).
        by case_decide.
      * rewrite lookup_insert_ne by done.
        destruct (decide (c ∈ chans)) as [Hin|Hin].
        -- by rewrite decide_True by (apply elem_of_cons; by right).
        -- rewrite decide_False; [done|].
           intros [?|?]%elem_of_cons; done.
    + destruct (IH w) as [Hg Hc]. split; [done|]. intros c. rewrite Hc.
      destruct (decide (c = channel)) as [->|Hne].
      * rewrite E. simpl. by repeat case_decide.
      * destruct (decide (c ∈ chans)) as [Hin|Hin].
        -- by rewrite decide_True by (apply elem_of_cons; by right).
        -- rewrite decide_False; [done|].
           intros [?|?]%elem_of_cons; done.
Qed.

Lemma save_cache_spec this (key : Z) w :
  written_through this key w (Feature.save_cache this key w).
Proof.
  unfold written_through, Feature.save_cache.
  destruct (global this); [|apply save_channels_spec].
  destruct (guildCache w !! gid this) as [items|] eqn:E; simpl.
  - split; [done|]. intros g. case_decide as Hg; subst.
    + by rewrite lookup_insert_eq, E.
    + by rewrite lookup_insert_ne.
  - split; [done|]. intros g. case_decide; subst; [by rewrite E | done].
Qed.





Lemma save_cache_issued this (key : Z) w :
  issued (Feature.save_cache this key w) = issued w
  ∧ table (Feature.save_cache this key w) = table w.
Proof.
  unfold Feature.save_cache. destruct (global this).
  - by destruct (guildCache w !! gid this).
  - generalize (channels this). intros chans. revert w.
    induction chans as [|channel chans IH]; intros w; simpl; [done|].
    destruct (channelCache w !! channel); [|apply IH].
    by destruct (IH (Feature.with_channelCache
                       (<[channel := Collection.set t key this]> (channelCache w)) w)).
Qed.

(** [save] ends normally when the lengths agree (on the update path) and
    the database takes the statement. *)
Lemma save_returns this w :
  match Feature.truthy_id (id this) with
  | Some key =>
      length (serialize this) = length columns →
      ∀ t, run_update (serialize this ++ [VNumber key]) (table w) = Some t →
           (Feature.save this w).1 = Normal this
  | None =>
      ∀ insertId t, run_insert (serialize this) (table w) = Some (insertId, t) →
                    (Feature.save this w).1 = Normal (Feature.with_id this insertId)
  end.
Proof.
  unfold Feature.save. destruct (Feature.truthy_id (id this)) as [key|].
  - intros Hlen t Ht. apply Nat.eqb_eq in Hlen. rewrite Hlen. simpl. by rewrite Ht.
  - intros insertId t Ht. simpl. by rewrite Ht.
Qed.

(** On the update path a difference in length is thrown before anything
    is sent to the database. *)
Lemma save_update_checked this w (key : Z) :
  Feature.truthy_id (id this) = Some key →
  length (serialize this) ≠ length columns →
  Feature.save this w = (Throw (Thrown "Unable to update, lengths differ!"), w).
Proof.
  intros Hid Hlen. unfold Feature.save. rewrite Hid.
  by destruct (Nat.eqb_spec (length (serialize this)) (length columns)).
Qed.

(** On the insert path the statement is sent whatever the lengths are. *)
Lemma save_insert_unchecked this w :
  Feature.truthy_id (id this) = None →
  issued (Feature.save this w).2 = issued w ++ [Insert (serialize this)].
Proof.
  intros Hid. unfold Feature.save. rewrite Hid. simpl.
  destruct (run_insert _ _) as [[insertId t]|]; [|done]. simpl.
  by destruct (save_cache_issued (Feature.with_id this insertId) insertId
                 (Feature.with_table t (Feature.issue (Insert (serialize this)) w)))
    as [-> _].
Qed.

End SaveFacts.

(** C2: the insert path of [save] has no check of the lengths. For a
    record without id whose [serialize] gives three values for two columns,
    [save] sends the INSERT, a row is written and [save] ends normally, where
    the same record with an id is refused before anything is sent. *)
Theorem C2_insert_path_unchecked :
  length (serialize (FeatureKind := Sample.wide_kind) Sample.unsaved)
  ≠ length (columns (FeatureKind := Sample.wide_kind))
  ∧ (∃ this' w',
       Feature.save (K := Sample.wide_kind) Sample.unsaved Sample.empty_world
       = (Normal this', w')
       ∧ issued w' = [Insert [VString "g1"; VString "hello"; VNumber 1]]
       ∧ length (table w') = 1%nat)
  ∧ Feature.save (K := Sample.wide_kind) Sample.saved Sample.empty_world
    = (Throw (Thrown "Unable to update, lengths differ!"), Sample.empty_world).
Proof.
  split; [simpl; lia|]. split.
  - eexists _, _. repeat split; reflexivity.
  - reflexivity.
Qed.

(** C3: [refreshChannel] selects by [LIKE '%id%'], which holds of every
    row whose [channels] text contains the id anywhere. The record of the
    channel 175928847299117063 alone is installed for the channel
    75928847299117063, which is not in its list of channels. *)
Theorem C3_substring_selected :
  let w := Feature.refreshChannel (K := Sample.responses)
             Sample.old_channel Sample.snowflake_world in
  let record := Feature.fromData (K := Sample.responses)
                  (Sample.row 1 "g1" 0 Sample.new_channel "hello") in
  channels record = [Sample.new_channel]
  ∧ (Sample.old_channel ∉ channels record)
  ∧ channelCache w !! Sample.old_channel = Some [(1, record)].
Proof.
  cbv zeta. split; [reflexivity|]. split.
  - intros H. vm_compute in H. apply list_elem_of_singleton in H. discriminate H.
  - unfold Feature.refreshChannel. simpl. rewrite lookup_insert_eq.
    f_equal.
Qed.

(** C5: [get] does not always return the records of the channel and of
    the guild. Asked for the channel 75928847299117063 and the guild [g2] on
    the table whose one record is of the channel 175928847299117063 and of
    the guild [g1], and is not global, [get] loads the channel with
    [LIKE '%id%'] and returns that record. And with the channel [c1] cached
    and its timer set, a [get] for [c1] and the uncached guild [g1] during
    whose wait for the guild that timer runs returns nothing: the entry of
    the channel is gone at the last line, which throws a TypeError. *)
Theorem C5_get_foreign_record :
  let record := Feature.fromData (K := Sample.responses)
                  (Sample.row 1 "g1" 0 Sample.new_channel "hello") in
  let cached := Feature.refreshChannel (K := Sample.responses) "c1" Sample.world in
  ((Feature.get (K := Sample.responses) Feature.quiet Feature.quiet
      Sample.old_channel "g2" Sample.snowflake_world).1
   = Normal [(1, record)]
   ∧ (Sample.old_channel ∉ channels record)
   ∧ global record = false
   ∧ gid record = "g1")
  ∧ (timers cached = [(600000, ChannelScope, "c1")]
     ∧ Collection.keys <$> channelCache cached !! "c1" = Some [1]
     ∧ (Feature.get (K := Sample.responses) Feature.quiet
          {| Feature.due := [0%nat]; Feature.answered := true |}
          "c1" "g1" cached).1
       = Throw TypeError).
Proof.
  cbv zeta. split.
  - split; [by vm_compute|]. split; [|done].
    intros H. vm_compute in H. apply list_elem_of_singleton in H. discriminate H.
  - split; [by vm_compute|]. split; by vm_compute.
Qed.

(** ** The theorems at sample data *)

Lemma cache_ok_empty {E : Type} (t : list (Row E)) :
  cache_ok {| table := t; issued := []; channelCache := ∅; guildCache := ∅;
              timers := [] |}.
Proof. split; intros key c H; simpl in H; by rewrite lookup_empty in H. Qed.

(** C8 at the sample table: the two summaries of guild [g1] in one chunk. *)
Lemma C8_guild_overview_witness :
  Forall (fun o => (String.length (getOverview (FeatureKind := Sample.responses) o) < 2000)%nat)
    (Collection.values (Feature.getAll (K := Sample.responses) "g1" Sample.world).1)
  ∧ ∃ chunks : list string,
      (Feature.getGuildOverview (K := Sample.responses) "g1" Sample.world).1
      = Some chunks
      ∧ flatten chunks = "firstsecond".
Proof.
  assert (Hfit : Forall
    (fun o => (String.length (getOverview (FeatureKind := Sample.responses) o) < 2000)%nat)
    (Collection.values (Feature.getAll (K := Sample.responses) "g1" Sample.world).1)).
  { vm_compute. repeat constructor. }
  split; [exact Hfit|].
  destruct (C8_guild_overview (K := Sample.responses) "g1" Sample.world Hfit)
    as [_ Hsome].
  destruct Hsome as (chunks & Hov & Hflat & _); [by vm_compute|].
  exists chunks. split; [exact Hov|]. rewrite Hflat. reflexivity.
Defined.

(** Saving a global record whose guild is cached sets it in that entry and
    in no other; saving it when nothing is cached leaves the cache empty. *)
Lemma save_examples :
  let this : ChatTriggeredFeature string :=
    {| id := Some 2; global := true; gid := "g1"; channels := ["c1"];
       trigger := {| type := "include"; content := "new"; flags := None |};
       extra := "new" |} in
  let cached := Feature.refreshChannel (K := Sample.responses) "c1"
                  (Feature.refreshGuild (K := Sample.responses) "g1" Sample.world) in
  let w' := (Feature.save (K := Sample.responses) this cached).2 in
  guildCache w' !! "g1" = Some [(2, this)]
  ∧ channelCache w' !! "c1" = channelCache cached !! "c1"
  ∧ channelCache (Feature.save (K := Sample.responses) this Sample.world).2 = ∅
  ∧ guildCache (Feature.save (K := Sample.responses) this Sample.world).2 = ∅.
Proof. cbv zeta. repeat split; vm_compute; reflexivity. Qed.

(** ** The cache invariant *)

Section InvariantFacts.
Context {K : FeatureKind}.
Implicit Types (this : ChatTriggeredFeature Extra) (w : World Extra).

Lemma cache_ok_refreshChannel (channelId : string) w :
  cache_ok w → cache_ok (Feature.refreshChannel channelId w).
Proof.
  intros [Hch Hgu]. split; simpl; [|exact Hgu].
  intros key c. destruct (decide (channelId = key)) as [->|Hne].
  - rewrite lookup_insert_eq. intros [= <-]. apply collect_ok.
  - rewrite lookup_insert_ne by done. apply Hch.
Qed.

Lemma cache_ok_refreshGuild (guildId : string) w :
  cache_ok w → cache_ok (Feature.refreshGuild guildId w).
Proof.
  intros [Hch Hgu]. split; simpl; [exact Hch|].
  intros key c. destruct (decide (guildId = key)) as [->|Hne].
  - rewrite lookup_insert_eq. intros [= <-]. apply collect_ok.
  - rewrite lookup_insert_ne by done. apply Hgu.
Qed.

Lemma cache_ok_expire (s : scope) (key : string) w :
  cache_ok w → cache_ok (Feature.expire s key w).
Proof.
  intros [Hch Hgu]. destruct s; split; simpl; try done.
  - intros k c [_ H]%lookup_delete_Some. by eapply Hch.
  - intros k c [_ H]%lookup_delete_Some. by eapply Hgu.
Qed.

Lemma cache_ok_run_due (l : list nat) w :
  cache_ok w → cache_ok (Feature.run_due l w).
Proof.
  revert w. induction l as [|i l IH]; intros w Hw; simpl; [done|].
  apply IH. unfold Feature.run_timer.
  destruct (timers w !! i) as [[[d s] key]|]; [by apply cache_ok_expire | done].
Qed.

Lemma cache_ok_reload (e : Feature.wait) (q : statement)
    (refresh : World Extra → World Extra) w :
  (∀ w0, cache_ok w0 → cache_ok (refresh w0)) →
  cache_ok w → cache_ok (Feature.reload e q refresh w).2.
Proof.
  intros Hr Hw. unfold Feature.reload. destruct (Feature.answered e); simpl.
  - by apply Hr, cache_ok_run_due.
  - exact (cache_ok_run_due (Feature.due e) w Hw).
Qed.

Lemma cache_ok_get (e1 e2 : Feature.wait) (channelId guildId : string) w :
  cache_ok w → cache_ok (Feature.get e1 e2 channelId guildId w).2.
Proof.
  intros Hw. unfold Feature.get.
  set (p1 := match channelCache w !! channelId with
             | Some _ => (Normal tt, w)
             | None => Feature.reload e1 _ (Feature.refreshChannel channelId) w
             end).
  assert (H1 : cache_ok p1.2).
  { unfold p1. destruct (channelCache w !! channelId); [done|].
    apply cache_ok_reload; [|done]. intros w0. apply cache_ok_refreshChannel. }
  destruct p1 as [[[]|err] w1]; simpl in *; [|done].
  set (p2 := match guildCache w1 !! guildId with
             | Some _ => (Normal tt, w1)
             | None => Feature.reload e2 _ (Feature.refreshGuild guildId) w1
             end).
  assert (H2 : cache_ok p2.2).
  { unfold p2. destruct (guildCache w1 !! guildId); [done|].
    apply cache_ok_reload; [|done]. intros w0. apply cache_ok_refreshGuild. }
  destruct p2 as [[[]|err] w2]; simpl in *; [|done].
  by destruct (channelCache w2 !! channelId), (guildCache w2 !! guildId).
Qed.

Lemma cache_ok_save_cache this (key : Z) w :
  id this = Some key → cache_ok w → cache_ok (Feature.save_cache this key w).
Proof.
  intros Hid [Hch Hgu].
  assert (Hset : ∀ items : Collection.t (ChatTriggeredFeature Extra),
            distinct_keys items ∧ keyed_by_id items →
            distinct_keys (Collection.set items key this)
            ∧ keyed_by_id (Collection.set items key this)).
  { intros items [Hd Hk]. split; [by apply distinct_keys_set | by apply Forall_set]. }
  pose proof (save_cache_spec this key w) as Hspec. unfold written_through in Hspec.
  destruct (global this); destruct Hspec as [Hsame Hlook]; split.
  - rewrite Hsame. exact Hch.
  - intros g c. rewrite Hlook. case_decide; [|apply Hgu].
    destruct (guildCache w !! g) as [items|] eqn:E; [|done].
    intros [= <-]. apply Hset. by eapply Hgu.
  - intros k c. rewrite Hlook. case_decide; [|apply Hch].
    destruct (channelCache w !! k) as [items|] eqn:E; [|done].
    intros [= <-]. apply Hset. by eapply Hch.
  - rewrite Hsame. exact Hgu.
Qed.

Lemma cache_ok_save this w :
  cache_ok w → cache_ok (Feature.save this w).2.
Proof.
  intros Hw. unfold Feature.save.
  destruct (Feature.truthy_id (id this)) as [key|] eqn:Hid.
  - destruct (negb _); [done|]. simpl.
    destruct (run_update _ _) as [t|]; [|done].
    apply cache_ok_save_cache; [|done].
    unfold Feature.truthy_id in Hid. destruct (id this) as [z|]; [|done].
    by destruct (z =? 0); simplify_eq.
  - simpl. destruct (run_insert _ _) as [[insertId t]|]; [|done].
    by apply cache_ok_save_cache.
Qed.

End InvariantFacts.

(** ** What the channel query selects *)

Lemma like_percent (p s : list ascii) :
  Sql.like ("%"%char :: p) s
  = Sql.like p s
    || match s with
       | [] => false
       | _ :: s' => Sql.like ("%"%char :: p) s'
       end.
Proof. by destruct s. Qed.

Lemma like_plain_cons (c : ascii) (p s : list ascii) :
  c ≠ "%"%char ∧ c ≠ "_"%char ∧ c ≠ "\"%char →
  Sql.like (c :: p) s
  = match s with
    | x :: s' => Ascii.eqb x c && Sql.like p s'
    | [] => false
    end.
Proof.
  intros (H1 & H2 & H3). simpl.
  apply Ascii.eqb_neq in H1 as ->. apply Ascii.eqb_neq in H2 as ->.
  by apply Ascii.eqb_neq in H3 as ->.
Qed.

Lemma like_any (p s : list ascii) :
  Sql.like ("%"%char :: p) s = true
  ↔ ∃ u v, s = u ++ v ∧ Sql.like p v = true.
Proof.
  induction s as [|x s IH]; rewrite like_percent.
  - rewrite orb_false_r. split.
    + intros H. by exists [], [].
    + intros (u & v & Huv & H). by destruct u, v.
  - rewrite orb_true_iff, IH. split.
    + intros [H | (u & v & -> & H)]; [by exists [], (x :: s) | by exists (x :: u), v].
    + intros (u & v & Huv & H). destruct u as [|y u]; simpl in Huv.
      * left. by subst.
      * right. injection Huv as -> ->. by exists u, v.
Qed.

Lemma like_plain (p rest s : list ascii) :
  plain p →
  Sql.like (p ++ rest) s = true ↔ ∃ v, s = p ++ v ∧ Sql.like rest v = true.
Proof.
  intros Hp. revert s. induction Hp as [|c p Hc Hp IH]; intros s.
  - simpl ((_ ++ _)). split; [intros H; by exists s | by intros (v & -> & H)].
  - change ((c :: p) ++ rest) with (c :: (p ++ rest)).
    rewrite like_plain_cons by done. destruct s as [|x s].
    + split; [done | by intros (v & ? & _)].
    + rewrite andb_true_iff, IH. split.
      * intros [Hx (v & -> & H)]. apply Ascii.eqb_eq in Hx as ->. by exists v.
      * intros (v & [= -> ->] & H). split; [apply Ascii.eqb_refl | by exists v].
Qed.

Lemma like_contains (p s : list ascii) :
  plain p →
  Sql.like ("%"%char :: p ++ ["%"%char]) s = true ↔ ∃ u v, s = u ++ p ++ v.
Proof.
  intros Hp. rewrite like_any. split.
  - intros (u & t & -> & H). apply (like_plain p) in H as (v & -> & _); [|done].
    by exists u, v.
  - intros (u & v & ->). exists u, (p ++ v). split; [done|].
    apply like_plain; [done|]. exists v. split; [done|].
    apply like_any. exists v, []. by rewrite app_nil_r.
Qed.

Lemma list_ascii_of_string_app (s t : string) :
  list_ascii_of_string (s +:+ t) = list_ascii_of_string s ++ list_ascii_of_string t.
Proof. induction s as [|a s IH]; [done|]. rewrite append_cons. simpl. by rewrite IH. Qed.

Lemma occurs_in_lists (p s : string) :
  occurs_in p s
  ↔ ∃ u v, list_ascii_of_string s = u ++ list_ascii_of_string p ++ v.
Proof.
  unfold occurs_in. split.
  - intros (u & v & ->). exists (list_ascii_of_string u), (list_ascii_of_string v).
    by rewrite !list_ascii_of_string_app.
  - intros (u & v & H). exists (string_of_list_ascii u), (string_of_list_ascii v).
    rewrite <- (string_of_list_ascii_of_string s), H.
    rewrite <- (list_ascii_of_string_of_list_ascii u) at 1.
    rewrite <- (list_ascii_of_string_of_list_ascii v) at 1.
    rewrite <- !list_ascii_of_string_app.
    by rewrite string_of_list_ascii_of_string.
Qed.

(** For an id without wildcard units, [channels LIKE '%id%'] holds exactly
    of the texts the id occurs in. *)
Lemma LIKE_occurs (channelId subject : string) :
  plain (list_ascii_of_string channelId) →
  Sql.LIKE subject (String "%" (channelId +:+ "%")) = true
  ↔ occurs_in channelId subject.
Proof.
  intros Hp. unfold Sql.LIKE. simpl list_ascii_of_string.
  rewrite list_ascii_of_string_app. simpl list_ascii_of_string.
  rewrite like_contains by done. by rewrite occurs_in_lists.
Qed.

Lemma member_occurs (sep x : string) (l : list string) :
  x ∈ l → occurs_in x (String.concat sep l).
Proof.
  induction l as [|y l IH]; [by intros ?%elem_of_nil|].
  intros [->|Hin]%elem_of_cons.
  - destruct l as [|z l]; simpl.
    + exists EmptyString, EmptyString. by rewrite append_empty_r.
    + by exists EmptyString, (sep +:+ String.concat sep (z :: l)).
  - destruct (IH Hin) as (u & v & Huv). destruct l as [|z l]; [by apply elem_of_nil in Hin|].
    exists (y +:+ sep +:+ u), v. change (String.concat sep (y :: z :: l))
      with (y +:+ sep +:+ String.concat sep (z :: l)).
    by rewrite Huv, !append_assoc.
Qed.

Section ChannelQueryFacts.
Context {K : FeatureKind}.

(** Every record that has the channel in its list is selected; by
    [C3_substring_selected] others are selected as well. *)
Lemma refreshChannel_selects_members (channelId : string) (data : Row Extra) :
  plain (list_ascii_of_string channelId) →
  channelId ∈ channels (Feature.fromData data) →
  Sql.LIKE (row_channels data) (String "%" (channelId +:+ "%")) = true.
Proof.
  intros Hp Hin. apply LIKE_occurs; [done|]. simpl in Hin.
  rewrite <- (split_unit_join "," (row_channels data)). by apply member_occurs.
Qed.

(** What [refreshChannel] installs: the rows whose [channels] text the id
    occurs in. *)
Lemma refreshChannel_installs (channelId : string) (w : World Extra) :
  plain (list_ascii_of_string channelId) →
  channelCache (Feature.refreshChannel channelId w) !! channelId
  = Some (Feature.collect
            (filter (fun r => Str.includes (row_channels r) channelId = true)
               (table w))).
Proof.
  intros Hp. simpl. rewrite lookup_insert_eq. do 2 f_equal.
  apply list_filter_iff. intros r. by rewrite LIKE_occurs, includes_spec.
Qed.

End ChannelQueryFacts.

(** ** The matcher and [exec] *)

Lemma reached_refl (st : Regex.mstate) :
  reached (Regex.before st) (Regex.after st) st.
Proof. by exists []. Qed.

Lemma reached_trans (b a : list ascii) (st e : Regex.mstate) :
  reached b a st → reached (Regex.before st) (Regex.after st) e → reached b a e.
Proof.
  intros (cs1 & -> & H1) (cs2 & H2 & H3). exists (cs1 ++ cs2).
  rewrite H2, H3, H1, rev_app_distr, <- !app_assoc. done.
Qed.

Lemma reached_step (b a : list ascii) (x : ascii) (e : Regex.mstate) :
  reached (x :: b) a e → reached b (x :: a) e.
Proof.
  intros (cs & -> & H). exists (x :: cs). split; [done|].
  rewrite H. simpl. by rewrite <- app_assoc.
Qed.

Section RunFacts.
Variable ic : bool.

Lemma plus_class_reached (p : ascii → bool)
    (k : Regex.mstate → option Regex.mstate) (cs : list (nat * string))
    (a : list ascii) :
  ∀ (b : list ascii) (e : Regex.mstate),
    Regex.plus_class p k b a cs = Some e →
    ∃ st, k st = Some e ∧ reached b a st ∧ (length b < length (Regex.before st))%nat.
Proof.
  induction a as [|x a IH]; intros b e; simpl; [done|].
  destruct (p x); [|done].
  destruct (Regex.plus_class p k (x :: b) a cs) as [e'|] eqn:E.
  - intros [= ->]. destruct (IH _ _ E) as (st & Hk & Hr & Hl).
    exists st. split; [done|]. split; [by apply reached_step|]. simpl in Hl. lia.
  - intros Hk. eexists. split; [exact Hk|]. split.
    + apply reached_step. apply (reached_refl (Regex.MState (x :: b) a cs)).
    + simpl. lia.
Qed.

(** Whatever [run] answers was answered by the continuation at a state
    reached from the starting one. *)
Lemma run_reached (r : Regex.regex) :
  ∀ (k : Regex.mstate → option Regex.mstate) (st e : Regex.mstate),
    Regex.run ic r k st = Some e →
    ∃ st', k st' = Some e ∧ reached (Regex.before st) (Regex.after st) st'.
Proof.
  induction r as [c|p|r1 IH1 r2 IH2|r IH|p|n r IH| | | |c]; intros k st e; simpl.
  - destruct st as [b [|x a] cs]; simpl; [done|].
    destruct (Regex.same_unit ic x c); [|done]. intros Hk.
    eexists. split; [exact Hk|]. apply reached_step.
    apply (reached_refl (Regex.MState (x :: b) a cs)).
  - destruct st as [b [|x a] cs]; simpl; [done|].
    destruct (p x); [|done]. intros Hk.
    eexists. split; [exact Hk|]. apply reached_step.
    apply (reached_refl (Regex.MState (x :: b) a cs)).
  - intros H. apply IH1 in H as (st1 & H & Hr1).
    apply IH2 in H as (st2 & H & Hr2).
    exists st2. split; [done|]. by eapply reached_trans.
  - destruct (Regex.run ic r k st) as [e'|] eqn:E.
    + intros [= ->]. by apply IH in E.
    + intros Hk. exists st. split; [done | apply reached_refl].
  - intros H. apply plus_class_reached in H as (st' & Hk & Hr & _). by exists st'.
  - intros H. apply IH in H as (st1 & H & Hr). eexists. split; [exact H|]. done.
  - destruct (Regex.before st) eqn:E; [|done].
    intros Hk. exists st. split; [done|]. rewrite <- E. apply reached_refl.
  - destruct (Regex.after st) eqn:E; [|done].
    intros Hk. exists st. split; [done|]. rewrite <- E. apply reached_refl.
  - destruct (xorb _ _); [|done].
    intros Hk. exists st. split; [done | apply reached_refl].
  - destruct (Regex.before st) as [|x b] eqn:E.
    + intros Hk. exists st. split; [done|]. rewrite <- E. apply reached_refl.
    + destruct (Ascii.eqb x c); [done|].
      intros Hk. exists st. split; [done|]. rewrite <- E. apply reached_refl.
Qed.

Lemma match_here_reached (r : Regex.regex) (b a : list ascii) (e : Regex.mstate) :
  Regex.match_here ic r b a = Some e → reached b a e.
Proof.
  unfold Regex.match_here. intros H.
  apply run_reached in H as (st' & [= ->] & Hr). exact Hr.
Qed.

Lemma never_empty_lit (c : ascii) (r : Regex.regex) :
  never_empty ic (Regex.Cat (Regex.Lit c) r).
Proof.
  intros b a e. unfold Regex.match_here. simpl.
  destruct a as [|x a]; [done|]. destruct (Regex.same_unit ic x c); [|done].
  intros H. apply run_reached in H as (st' & [= ->] & (cs & _ & Hb)).
  simpl in Hb. rewrite Hb, length_app. simpl. lia.
Qed.

Lemma exec_all_skip (r : Regex.regex) (cs : list ascii) :
  ∀ b a,
    Regex.exec_all ic r (length cs) b (cs ++ a)
    = Regex.exec_all ic r 0 (rev cs ++ b) a.
Proof.
  induction cs as [|c cs IH]; intros b a; simpl.
  - by destruct a.
  - rewrite IH. by rewrite <- app_assoc.
Qed.

(** The matches listed by [exec_all] are the successive answers of [exec],
    each call starting where the match before it ended. *)
Lemma exec_all_unfold (r : Regex.regex) :
  never_empty ic r →
  ∀ a b,
    Regex.exec_all ic r 0 b a
    = match Regex.exec ic r b a with
      | None => []
      | Some (b0, e) =>
          (b0, e) :: Regex.exec_all ic r 0 (Regex.before e) (Regex.after e)
      end.
Proof.
  intros Hne. induction a as [|c a IH]; intros b.
  - simpl. destruct (Regex.match_here ic r b []) as [e|] eqn:E; [|done].
    pose proof (Hne _ _ _ E) as Hl.
    apply match_here_reached in E as (cs & Ha & Hb).
    symmetry in Ha. apply app_eq_nil in Ha as [-> _]. simpl in Hb.
    rewrite Hb in Hl. lia.
  - simpl. destruct (Regex.match_here ic r b (c :: a)) as [e|] eqn:E; [|apply IH].
    pose proof (Hne _ _ _ E) as Hl.
    apply match_here_reached in E as (cs & Ha & Hb).
    destruct cs as [|c' cs]; [simpl in Hb; rewrite Hb in Hl; lia|].
    simpl in Ha. injection Ha as <- ->.
    f_equal. rewrite Hb. simpl. rewrite !length_app, length_rev. simpl.
    replace (length cs + 1 + length b - length b - 1)%nat with (length cs) by lia.
    rewrite exec_all_skip. by rewrite <- app_assoc.
Qed.

End RunFacts.

(** The loop over the links of a message sees the successive answers of
    [regex.exec]. *)
Lemma link_matches_unfold (b a : list ascii) :
  Regex.exec_all true Matcher.link_regex 0 b a
  = match Regex.exec true Matcher.link_regex b a with
    | None => []
    | Some (b0, e) =>
        (b0, e)
        :: Regex.exec_all true Matcher.link_regex 0 (Regex.before e) (Regex.after e)
    end.
Proof. apply exec_all_unfold, never_empty_lit. Qed.

Lemma never_empty_slash : never_empty false Validation.slash_regex.
Proof.
  intros b a e. unfold Regex.match_here, Validation.slash_regex. simpl.
  destruct b as [|y b].
  - destruct a as [|x a]; [done|]. destruct (Ascii.eqb x "/"); [|done].
    intros [= <-]. simpl. lia.
  - destruct (Ascii.eqb y "\"); [done|].
    destruct a as [|x a]; [done|]. destruct (Ascii.eqb x "/"); [|done].
    intros [= <-]. simpl. lia.
Qed.

Lemma slash_matches_unfold (b a : list ascii) :
  Regex.exec_all false Validation.slash_regex 0 b a
  = match Regex.exec false Validation.slash_regex b a with
    | None => []
    | Some (b0, e) =>
        (b0, e)
        :: Regex.exec_all false Validation.slash_regex 0
             (Regex.before e) (Regex.after e)
    end.
Proof. apply exec_all_unfold, never_empty_slash. Qed.

Lemma comma_matches_unfold (b a : list ascii) :
  Regex.exec_all false Matcher.comma_regex 0 b a
  = match Regex.exec false Matcher.comma_regex b a with
    | None => []
    | Some (b0, e) =>
        (b0, e)
        :: Regex.exec_all false Matcher.comma_regex 0 (Regex.before e) (Regex.after e)
    end.
Proof. apply exec_all_unfold, never_empty_lit. Qed.

(** [get] at the sample table: the two records of channel [c1] and guild
    [g1], by ascending id, and both scopes cached afterwards. *)
Lemma get_example :
  let answer := Feature.get (K := Sample.responses) Feature.quiet Feature.quiet
                  "c1" "g1" Sample.world in
  (Collection.keys <$> (match answer.1 with Normal c => Some c | Throw _ => None end))
  = Some [1; 2]
  ∧ dom (channelCache answer.2) = {["c1"]}
  ∧ dom (guildCache answer.2) = {["g1"]}
  ∧ timers answer.2
    = [(600000, ChannelScope, "c1"); (600000, GuildScope, "g1")].
Proof. cbv zeta. repeat split; vm_compute; reflexivity. Qed.

(** ** Removing *)

Section DeleteFacts.
Context {V : Type}.
Implicit Types (c : Collection.t V) (k : Z) (v : V).

Lemma get_delete c k k' :
  Collection.get (Collection.delete c k) k'
  = if decide (k = k') then None else Collection.get c k'.
Proof.
  induction c as [|[k0 v0] c IH]; simpl; [by case_decide|].
  destruct (Z.eqb_spec k0 k) as [->|Hne]; simpl.
  - rewrite IH. case_decide; [done|]. by destruct (Z.eqb_spec k k').
  - rewrite IH. destruct (Z.eqb_spec k0 k'); [|done]. case_decide; [congruence | done].
Qed.

Lemma delete_absent c k :
  Collection.get c k = None → Collection.delete c k = c.
Proof.
  induction c as [|[k0 v0] c IH]; simpl; [done|].
  destruct (k0 =? k); [done|]. intros H. by rewrite IH.
Qed.

Lemma delete_set c k v :
  Collection.delete (Collection.set c k v) k = Collection.delete c k.
Proof.
  induction c as [|[k0 v0] c IH]; simpl.
  - by rewrite Z.eqb_refl.
  - destruct (Z.eqb_spec k0 k) as [->|Hne]; simpl.
    + by rewrite Z.eqb_refl.
    + destruct (Z.eqb_spec k0 k); [done|]. by rewrite IH.
Qed.

Lemma delete_delete c k :
  Collection.delete (Collection.delete c k) k = Collection.delete c k.
Proof.
  apply delete_absent. rewrite get_delete. by case_decide.
Qed.

Lemma distinct_keys_delete c k :
  distinct_keys c → distinct_keys (Collection.delete c k).
Proof.
  unfold distinct_keys.
  induction c as [|[k0 v0] c IH]; simpl; intros Hc; [done|].
  apply NoDup_cons in Hc as [Hk0 Hc].
  destruct (k0 =? k); [by apply IH|]. simpl. apply NoDup_cons. split; [|by apply IH].
  fold (Collection.keys (Collection.delete c k)). fold (Collection.keys c) in Hk0.
  rewrite elem_keys_get in *. rewrite get_delete. by case_decide.
Qed.

Lemma Forall_delete (P : Z * V → Prop) c k :
  Forall P c → Forall P (Collection.delete c k).
Proof.
  induction 1 as [|[k0 v0] c H0 Hc IH]; simpl; [done|].
  destruct (k0 =? k); [done | by constructor].
Qed.

End DeleteFacts.

Section RemoveFacts.
Context {K : FeatureKind}.
Implicit Types (this : ChatTriggeredFeature Extra) (w : World Extra).

Lemma delete_id_twice this (items : Collection.t (ChatTriggeredFeature Extra)) :
  Feature.delete_id (Feature.delete_id items (id this)) (id this)
  = Feature.delete_id items (id this).
Proof. destruct (id this); simpl; [apply delete_delete | done]. Qed.

Lemma remove_channels_spec this (chans : list string) :
  ∀ w,
    guildCache (Feature.remove_channels this chans w) = guildCache w
    ∧ table (Feature.remove_channels this chans w) = table w
    ∧ ∀ c : string,
        channelCache (Feature.remove_channels this chans w) !! c
        = if decide (c ∈ chans)
          then (fun items => Feature.delete_id items (id this))
                 <$> channelCache w !! c
          else channelCache w !! c.
Proof.
  induction chans as [|channel chans IH]; intros w; simpl; [done|].
  destruct (channelCache w !! channel) as [items|] eqn:E.
  - destruct (IH (Feature.with_channelCache
                    (<[channel := Feature.delete_id items (id this)]> (channelCache w)) w))
      as (Hg & Ht & Hc).
    split; [by rewrite Hg|]. split; [by rewrite Ht|]. intros c. rewrite Hc. simpl.
    destruct (decide (c = channel)) as [->|Hne].
    + rewrite lookup_insert_eq, E. simpl. rewrite delete_id_twice.
      rewrite (decide_True (P := channel ∈ channel :: chans))
        by (apply elem_of_cons; by left).
      by case_decide.
    + rewrite lookup_insert_ne by done.
      destruct (decide (c ∈ chans)) as [Hin|Hin].
      * by rewrite decide_True by (apply elem_of_cons; by right).
      * rewrite decide_False; [done|]. intros [?|?]%elem_of_cons; done.
  - destruct (IH w) as (Hg & Ht & Hc). split; [done|]. split; [done|].
    intros c. rewrite Hc. destruct (decide (c = channel)) as [->|Hne].
    + rewrite E. simpl. by repeat case_decide.
    + destruct (decide (c ∈ chans)) as [Hin|Hin].
      * by rewrite decide_True by (apply elem_of_cons; by right).
      * rewrite decide_False; [done|]. intros [?|?]%elem_of_cons; done.
Qed.

(** The two caches after the second half of [remove]. *)
Lemma remove_cache_spec this w :
  table (Feature.remove_cache this w) = table w
  ∧ if global this then
      channelCache (Feature.remove_cache this w) = channelCache w
      ∧ ∀ g : string,
          guildCache (Feature.remove_cache this w) !! g
          = if decide (g = gid this)
            then (fun items => Feature.delete_id items (id this))
                   <$> guildCache w !! g
            else guildCache w !! g
    else
      guildCache (Feature.remove_cache this w) = guildCache w
      ∧ ∀ c : string,
          channelCache (Feature.remove_cache this w) !! c
          = if decide (c ∈ channels this)
            then (fun items => Feature.delete_id items (id this))
                   <$> channelCache w !! c
            else channelCache w !! c.
Proof.
  unfold Feature.remove_cache. destruct (global this).
  - destruct (guildCache w !! gid this) as [items|] eqn:E; simpl.
    + split; [done|]. split; [done|]. intros g. case_decide as Hg; subst.
      * by rewrite lookup_insert_eq, E.
      * by rewrite lookup_insert_ne.
    + split; [done|]. split; [done|].
      intros g. case_decide; subst; [by rewrite E | done].
  - destruct (remove_channels_spec this (channels this) w) as (Hg & Ht & Hc). done.
Qed.

Lemma held_fmap_delete
    (cache : gmap string (Collection.t (ChatTriggeredFeature Extra)))
    (s : string) (key k : Z) :
  ((fun items => Collection.delete items key) <$> cache !! s)
    ≫= (fun items => Collection.get items k)
  = if decide (key = k) then None else held cache s k.
Proof.
  unfold held. destruct (cache !! s) as [items|]; simpl.
  - apply get_delete.
  - by case_decide.
Qed.

(** X1: [remove] deletes the rows of the id of the record and takes the id
    out of every cached scope the record belongs to (the guild of a global
    record, each channel of another), so that it is held there no more; the
    records of other ids, the other cache and the set of cached scopes stay as
    they are. *)
Theorem X1_remove_takes_out this w (key : Z) :
  id this = Some key →
  let w' := Feature.remove this w in
  (∀ r, r ∈ table w' ↔ r ∈ table w ∧ row_id r ≠ key)
  ∧ same_scopes (channelCache w') (channelCache w)
  ∧ same_scopes (guildCache w') (guildCache w)
  ∧ (if global this
     then held (guildCache w') (gid this) key = None
          ∧ channelCache w' = channelCache w
     else (∀ c, c ∈ channels this → held (channelCache w') c key = None)
          ∧ guildCache w' = guildCache w)
  ∧ (∀ s k, k ≠ key →
       held (channelCache w') s k = held (channelCache w) s k
       ∧ held (guildCache w') s k = held (guildCache w) s k).
Proof.
  intros Hid w'. unfold w', Feature.remove.
  set (w0 := Feature.with_table (Feature.delete_rows (id this) (table w)) w).
  pose proof (remove_cache_spec this w0) as [Ht Hc].
  change (channelCache w0) with (channelCache w) in Hc.
  change (guildCache w0) with (guildCache w) in Hc.
  rewrite Hid in Hc. simpl in Hc.
  split.
  { intros r. rewrite Ht. unfold w0. simpl. rewrite Hid. simpl.
    rewrite list_elem_of_filter. tauto. }
  destruct (global this); destruct Hc as [Hsame Hlook]; unfold same_scopes, held;
    rewrite Hsame.
  - split; [done|]. split.
    { intros s. rewrite Hlook. case_decide; [|done]. by rewrite fmap_is_Some. }
    split.
    { split; [|done]. rewrite Hlook, decide_True by done.
      rewrite held_fmap_delete. by case_decide. }
    intros s k Hk. split; [done|]. rewrite Hlook. case_decide; [|done].
    rewrite held_fmap_delete. by case_decide.
  - split.
    { intros s. rewrite Hlook. case_decide; [|done]. by rewrite fmap_is_Some. }
    split; [done|]. split.
    { split; [|done]. intros c Hin. rewrite Hlook, decide_True by done.
      rewrite held_fmap_delete. by case_decide. }
    intros s k Hk. split; [|done]. rewrite Hlook. case_decide; [|done].
    rewrite held_fmap_delete. by case_decide.
Qed.

(** X2: a record that [save] has stored and [remove] then takes out leaves
    both caches exactly as they were before the [save], when its id was held
    in no cached scope before. *)
Theorem X2_save_then_remove this w this' w' (key : Z) :
  Feature.save this w = (Normal this', w') →
  id this' = Some key →
  nowhere_cached key w →
  channelCache (Feature.remove this' w') = channelCache w
  ∧ guildCache (Feature.remove this' w') = guildCache w.
Proof.
  intros Hsave Hid [Hnc Hng].
  assert (Hw' : written_through this' key w w').
  { revert Hsave. unfold Feature.save.
    destruct (Feature.truthy_id (id this)) as [key0|] eqn:Ht.
    - destruct (negb _); [done|]. simpl.
      destruct (run_update _ _) as [t|]; [|done]. intros [= <- <-].
      assert (key0 = key) as ->.
      { unfold Feature.truthy_id in Ht. rewrite Hid in Ht.
        by destruct (key =? 0); simplify_eq. }
      apply (save_cache_spec this key (Feature.with_table t (Feature.issue _ w))).
    - simpl. destruct (run_insert _ _) as [[insertId t]|]; [|done].
      intros [= <- <-]. simpl in Hid. injection Hid as ->.
      apply (save_cache_spec (Feature.with_id this key) key
               (Feature.with_table t (Feature.issue _ w))). }
  unfold Feature.remove.
  set (w0 := Feature.with_table (Feature.delete_rows (id this') (table w')) w').
  pose proof (remove_cache_spec this' w0) as [_ Hc].
  change (channelCache w0) with (channelCache w') in Hc.
  change (guildCache w0) with (guildCache w') in Hc.
  rewrite Hid in Hc. simpl in Hc. unfold written_through in Hw'.
  assert (Hback : ∀ (cache : gmap string (Collection.t (ChatTriggeredFeature Extra)))
                    (s : string),
            held cache s key = None →
            (fun items => Collection.delete items key)
              <$> ((fun items => Collection.set items key this') <$> cache !! s)
            = cache !! s).
  { intros cache s. unfold held. destruct (cache !! s) as [items|]; simpl; [|done].
    intros Hget. by rewrite delete_set, delete_absent. }
  destruct (global this'); destruct Hc as [Hsame Hlook]; destruct Hw' as [Hsame' Hlook'].
  - split; [by rewrite Hsame|]. apply map_eq. intros g. rewrite Hlook.
    case_decide as Hg; rewrite Hlook'; [|by rewrite decide_False].
    rewrite decide_True by done. by apply Hback.
  - split; [|by rewrite Hsame]. apply map_eq. intros c. rewrite Hlook.
    case_decide as Hin; rewrite Hlook'; [|by rewrite decide_False].
    rewrite decide_True by done. by apply Hback.
Qed.

End RemoveFacts.

(** ** Reading the table *)

Section ReadFacts.
Context {K : FeatureKind}.
Implicit Types (w : World Extra) (t : list (Row Extra)).

Lemma distinct_ids_filter (P : Row Extra → Prop) `{∀ r, Decision (P r)} t :
  distinct_ids t → distinct_ids (filter P t).
Proof.
  unfold distinct_ids. induction t as [|r t IH]; [done|].
  rewrite fmap_cons, NoDup_cons. intros [Hr Ht].
  rewrite filter_cons. case_decide; [|by apply IH].
  rewrite fmap_cons, NoDup_cons. split; [|by apply IH].
  intros (r' & Heq & Hin)%list_elem_of_fmap. apply Hr.
  apply list_elem_of_fmap. exists r'. split; [done|].
  by apply list_elem_of_filter in Hin as [_ ?].
Qed.

Lemma collect_snoc t (r : Row Extra) :
  Feature.collect (t ++ [r])
  = Collection.set (Feature.collect t) (row_id r) (Feature.fromData r).
Proof. unfold Feature.collect. by rewrite fold_left_app. Qed.

(** Whatever a loaded collection holds under a key is the record of a row
    of that id. *)
Lemma collect_sound t (k : Z) (v : ChatTriggeredFeature Extra) :
  Collection.get (Feature.collect t) k = Some v →
  ∃ r, r ∈ t ∧ row_id r = k ∧ v = Feature.fromData r.
Proof.
  induction t as [|r t IH] using rev_ind; [done|].
  rewrite collect_snoc, get_set. case_decide as Hk.
  - intros [= <-]. exists r. split; [|done]. apply elem_of_app. right. by left.
  - intros (r' & Hin & Hr')%IH. exists r'. split; [|done]. apply elem_of_app. by left.
Qed.

(** With distinct ids, every row is held under its id. *)
Lemma collect_complete t (r : Row Extra) :
  distinct_ids t → r ∈ t →
  Collection.get (Feature.collect t) (row_id r) = Some (Feature.fromData r).
Proof.
  unfold distinct_ids. induction t as [|r0 t IH] using rev_ind; [by intros _ ?%elem_of_nil|].
  rewrite fmap_app, NoDup_app. intros (Ht & Hdis & _) Hin.
  rewrite collect_snoc, get_set. apply elem_of_app in Hin as [Hin|Hin].
  - case_decide as Hk; [|by apply IH]. exfalso.
    apply (Hdis (row_id r)); [apply list_elem_of_fmap; by exists r|].
    rewrite <- Hk. simpl. by left.
  - apply list_elem_of_singleton in Hin as ->. by rewrite decide_True.
Qed.

Lemma sorted_by_id (c : Collection.t (ChatTriggeredFeature Extra)) :
  distinct_keys c → keyed_by_id c →
  (∀ k, Collection.get (Collection.sort Feature.by_id c) k = Collection.get c k)
  ∧ StronglySorted id_lt (Collection.values (Collection.sort Feature.by_id c)).
Proof.
  intros Hd Hk.
  assert (Hp : Collection.sort Feature.by_id c ≡ₚ c) by apply sort_Permutation.
  split.
  - intros k. symmetry. by apply get_Permutation.
  - apply sorted_values.
    + apply sorted_strict; [by apply sort_sorted|].
      unfold distinct_keys, Collection.keys in *. by rewrite Hp.
    + unfold keyed_by_id in *. by rewrite Hp.
Qed.

(** The records [getAll] answers, by key, and their order. *)
Lemma getAll_records (guildId : string) w :
  distinct_ids (table w) →
  (∀ k v, Collection.get (Feature.getAll guildId w).1 k = Some v
          ↔ ∃ r, r ∈ table w ∧ row_guildid r = guildId ∧ row_id r = k
                 ∧ v = Feature.fromData r)
  ∧ StronglySorted id_lt (Collection.values (Feature.getAll guildId w).1).
Proof.
  intros Hids. unfold Feature.getAll. simpl.
  set (rows := filter (fun r => String.eqb (row_guildid r) guildId = true) (table w)).
  destruct (collect_ok rows) as [Hd Hk].
  destruct (sorted_by_id (Feature.collect rows) Hd Hk) as [Hget Hsorted].
  split; [|done]. intros k v. rewrite Hget. split.
  - intros (r & Hin & Hr & Hv)%collect_sound. exists r.
    apply list_elem_of_filter in Hin as [Hg Hin]. by apply String.eqb_eq in Hg.
  - intros (r & Hin & Hg & <- & ->). apply collect_complete.
    + by apply distinct_ids_filter.
    + apply list_elem_of_filter. split; [by apply String.eqb_eq | done].
Qed.

(** X3: [getAll] never reads or changes the cache: it issues one query and
    answers, for a table with distinct ids, exactly the records of the rows of
    the guild, each under its id, in ascending order of the ids. *)
Theorem X3_getAll (guildId : string) w :
  distinct_ids (table w) →
  let records := (Feature.getAll guildId w).1 in
  let w' := (Feature.getAll guildId w).2 in
  (∀ k v, Collection.get records k = Some v
          ↔ ∃ r, r ∈ table w ∧ row_guildid r = guildId ∧ row_id r = k
                 ∧ v = Feature.fromData r)
  ∧ StronglySorted id_lt (Collection.values records)
  ∧ issued w' = issued w ++ [SelectAll guildId]
  ∧ channelCache w' = channelCache w ∧ guildCache w' = guildCache w
  ∧ timers w' = timers w ∧ table w' = table w.
Proof.
  intros Hids records w'. destruct (getAll_records guildId w Hids) as [Hget Hsorted].
  split; [exact Hget|]. split; [exact Hsorted|]. done.
Qed.

(** X4: [refreshGuild] installs for the guild, for a table with distinct
    ids, exactly the records of its rows that are global, each under its id;
    it replaces what was cached for that guild and touches neither the
    channel cache, nor another guild, nor the table. *)
Theorem X4_refreshGuild (guildId : string) w :
  distinct_ids (table w) →
  let w' := Feature.refreshGuild guildId w in
  (∀ k v, held (guildCache w') guildId k = Some v
          ↔ ∃ r, r ∈ table w ∧ row_guildid r = guildId ∧ row_global r = 1
                 ∧ row_id r = k ∧ v = Feature.fromData r)
  ∧ (∀ k v, held (guildCache w') guildId k = Some v →
            global v = true ∧ gid v = guildId ∧ id v = Some k)
  ∧ (∀ g, g ≠ guildId → guildCache w' !! g = guildCache w !! g)
  ∧ channelCache w' = channelCache w ∧ table w' = table w.
Proof.
  intros Hids w'. unfold w', held. simpl. rewrite lookup_insert_eq. simpl.
  set (rows := filter (fun r => String.eqb (row_guildid r) guildId = true
                                ∧ row_global r = 1) (table w)).
  assert (Hiff : ∀ k v, Collection.get (Feature.collect rows) k = Some v
            ↔ ∃ r, r ∈ table w ∧ row_guildid r = guildId ∧ row_global r = 1
                   ∧ row_id r = k ∧ v = Feature.fromData r).
  { intros k v. split.
    - intros (r & Hin & Hr & Hv)%collect_sound. exists r.
      apply list_elem_of_filter in Hin as [[Hg Hgl] Hin].
      by apply String.eqb_eq in Hg.
    - intros (r & Hin & Hg & Hgl & <- & ->). apply collect_complete.
      + by apply distinct_ids_filter.
      + apply list_elem_of_filter. split; [|done]. split; [by apply String.eqb_eq | done]. }
  split; [exact Hiff|]. split.
  - intros k v (r & _ & Hg & Hgl & Hk & ->)%Hiff. simpl.
    rewrite Hgl, Hk. done.
  - split; [|done]. intros g Hg. by rewrite lookup_insert_ne.
Qed.

(** X5: [refreshChannel] misses no record of the channel: for a table with
    distinct ids and a channel id without wildcard units, every row whose
    list of channels has the id as a member is installed under its id. *)
Theorem X5_refreshChannel_members (channelId : string) w (r : Row Extra) :
  distinct_ids (table w) →
  plain (list_ascii_of_string channelId) →
  r ∈ table w →
  channelId ∈ channels (Feature.fromData r) →
  held (channelCache (Feature.refreshChannel channelId w)) channelId (row_id r)
  = Some (Feature.fromData r).
Proof.
  intros Hids Hp Hin Hmem. unfold held. simpl. rewrite lookup_insert_eq. simpl.
  apply collect_complete; [by apply distinct_ids_filter|].
  apply list_elem_of_filter. split; [|done].
  by apply refreshChannel_selects_members.
Qed.

(** X6: [getByID] answers nothing exactly when no row has the id; for a
    table with distinct ids it answers the record of the row of that id, the
    same record [getAll] holds under that id. *)
Theorem X6_getByID w :
  distinct_ids (table w) →
  (∀ i, Feature.getByID i w = None ↔ ∀ r, r ∈ table w → row_id r ≠ i)
  ∧ (∀ r, r ∈ table w → Feature.getByID (row_id r) w = Some (Feature.fromData r))
  ∧ (∀ guildId k v,
       Collection.get (Feature.getAll guildId w).1 k = Some v →
       Feature.getByID k w = Some v).
Proof.
  intros Hids.
  assert (Hnone : ∀ i, Feature.getByID i w = None ↔ ∀ r, r ∈ table w → row_id r ≠ i).
  { intros i. unfold Feature.getByID. rewrite fmap_None, head_None. split.
    - intros Hnil r Hin Hr.
      assert (Hf : r ∈ filter (fun r => row_id r = i) (table w))
        by by apply list_elem_of_filter.
      rewrite Hnil in Hf. by apply elem_of_nil in Hf.
    - intros Hno. destruct (filter _ _) as [|r l] eqn:E; [done|]. exfalso.
      assert (Hf : r ∈ filter (fun r => row_id r = i) (table w))
        by (rewrite E; by left).
      apply list_elem_of_filter in Hf as [Hr Hin]. by apply (Hno r). }
  assert (Hsome : ∀ r, r ∈ table w →
            Feature.getByID (row_id r) w = Some (Feature.fromData r)).
  { intros r Hin. unfold Feature.getByID.
    destruct (filter (fun r0 => row_id r0 = row_id r) (table w)) as [|r0 l] eqn:E.
    - assert (Hf : r ∈ filter (fun r0 => row_id r0 = row_id r) (table w))
        by by apply list_elem_of_filter.
      rewrite E in Hf. by apply elem_of_nil in Hf.
    - simpl. do 2 f_equal.
      assert (Hf : r0 ∈ filter (fun r0 => row_id r0 = row_id r) (table w))
        by (rewrite E; by left).
      apply list_elem_of_filter in Hf as [Hr0 Hin0].
      (* two rows of one id in a table with distinct ids are one row *)
      clear E Hnone. unfold distinct_ids in Hids.
      induction (table w) as [|x t IH]; [by apply elem_of_nil in Hin|].
      rewrite fmap_cons, NoDup_cons in Hids. destruct Hids as [Hx Ht].
      apply elem_of_cons in Hin as [->|Hin], Hin0 as [->|Hin0]; try done.
      + exfalso. apply Hx. rewrite <- Hr0. apply list_elem_of_fmap. by exists r0.
      + exfalso. apply Hx. rewrite Hr0. apply list_elem_of_fmap. by exists r.
      + by apply IH. }
  split; [exact Hnone|]. split; [exact Hsome|].
  intros guildId k v Hget.
  destruct (getAll_records guildId w Hids) as [Hrec _].
  apply Hrec in Hget as (r & Hin & _ & <- & ->). by apply Hsome.
Qed.

End ReadFacts.

(** ** The operations at the sample table *)

Lemma rows_distinct : distinct_ids Sample.rows.
Proof.
  unfold distinct_ids. simpl.
  repeat (apply NoDup_cons; split; [rewrite ?elem_of_cons, elem_of_nil; lia|]).
  apply NoDup_nil_2.
Qed.

(** The sample table with the channel [c1] and the guild [g1] cached. *)
Lemma cached_scopes (s : string) (k : Z) :
  let w := Feature.refreshChannel (K := Sample.responses) "c1"
             (Feature.refreshGuild (K := Sample.responses) "g1" Sample.world) in
  (s ≠ "c1" → held (channelCache w) s k = None)
  ∧ (s ≠ "g1" → held (guildCache w) s k = None).
Proof.
  cbv zeta. unfold held, Feature.refreshChannel, Feature.refreshGuild.
  cbn [Feature.select Feature.schedule Feature.with_channelCache
       Feature.with_guildCache Feature.issue channelCache guildCache].
  split; intros Hs; by rewrite lookup_insert_ne.
Qed.

(** X1 at the first sample record, of the channels [c1] and [c2], with
    [c1] cached: it is held under [c1] before [remove] and no more after. *)
Lemma X1_remove_takes_out_witness :
  let this := Feature.fromData (K := Sample.responses)
                (Sample.row 1 "g1" 0 "c1,c2" "first") in
  let w := Feature.refreshChannel (K := Sample.responses) "c1"
             (Feature.refreshGuild (K := Sample.responses) "g1" Sample.world) in
  held (channelCache w) "c1" 1 = Some this
  ∧ held (channelCache (Feature.remove (K := Sample.responses) this w)) "c1" 1 = None
  ∧ table (Feature.remove (K := Sample.responses) this w)
    = [Sample.row 2 "g1" 1 EmptyString "second"; Sample.row 3 "g2" 1 EmptyString "other"].
Proof.
  cbv zeta. split; [by vm_compute|]. split; [|by vm_compute].
  destruct (X1_remove_takes_out (K := Sample.responses)
              (Feature.fromData (K := Sample.responses)
                 (Sample.row 1 "g1" 0 "c1,c2" "first"))
              (Feature.refreshChannel (K := Sample.responses) "c1"
                 (Feature.refreshGuild (K := Sample.responses) "g1" Sample.world))
              1 eq_refl) as (_ & _ & _ & Hout & _).
  apply Hout. vm_compute. by left.
Defined.

(** X2 at a new global record of the guild [g1], saved and removed while
    [c1] and [g1] are cached: the insert gives it the id 4, which no cached
    scope held. *)
Lemma X2_save_then_remove_witness :
  let this : ChatTriggeredFeature string :=
    {| id := None; global := true; gid := "g1"; channels := [EmptyString];
       trigger := {| type := "include"; content := "new"; flags := None |};
       extra := "new" |} in
  let w := Feature.refreshChannel (K := Sample.responses) "c1"
             (Feature.refreshGuild (K := Sample.responses) "g1" Sample.world) in
  let saved := Feature.save (K := Sample.responses) this w in
  saved.1 = Normal (Feature.with_id (K := Sample.responses) this 4)
  ∧ held (guildCache saved.2) "g1" 4
    = Some (Feature.with_id (K := Sample.responses) this 4)
  ∧ guildCache (Feature.remove (K := Sample.responses)
                  (Feature.with_id (K := Sample.responses) this 4) saved.2)
    = guildCache w.
Proof.
  cbv zeta. split; [by vm_compute|]. split; [by vm_compute|].
  set (this := {| id := None; global := true; gid := "g1"; channels := [EmptyString];
       trigger := {| type := "include"; content := "new"; flags := None |};
       extra := "new" |} : ChatTriggeredFeature string).
  set (w := Feature.refreshChannel (K := Sample.responses) "c1"
              (Feature.refreshGuild (K := Sample.responses) "g1" Sample.world)).
  refine (proj2 (X2_save_then_remove (K := Sample.responses) this w
                   (Feature.with_id (K := Sample.responses) this 4)
                   (Feature.save (K := Sample.responses) this w).2 4 _ eq_refl _)).
  - by vm_compute.
  - split; intros s.
    + destruct (decide (s = "c1")) as [->|Hs]; [by vm_compute|].
      by apply (cached_scopes s 4).
    + destruct (decide (s = "g1")) as [->|Hs]; [by vm_compute|].
      by apply (cached_scopes s 4).
Defined.

(** X3 at the sample table: the first record is among the records of the
    guild [g1], under its id. *)
Lemma X3_getAll_witness :
  Collection.get (Feature.getAll (K := Sample.responses) "g1" Sample.world).1 1
  = Some (Feature.fromData (K := Sample.responses)
            (Sample.row 1 "g1" 0 "c1,c2" "first")).
Proof.
  apply (X3_getAll (K := Sample.responses) "g1" Sample.world rows_distinct).
  exists (Sample.row 1 "g1" 0 "c1,c2" "first").
  split; [|done]. simpl. unfold Sample.rows. set_solver.
Defined.

(** X4 at the sample table: the global record of the guild [g1] is
    installed, and what is installed is global. *)
Lemma X4_refreshGuild_witness :
  let w' := Feature.refreshGuild (K := Sample.responses) "g1" Sample.world in
  held (guildCache w') "g1" 2
  = Some (Feature.fromData (K := Sample.responses)
            (Sample.row 2 "g1" 1 EmptyString "second"))
  ∧ held (guildCache w') "g1" 1 = None.
Proof.
  cbv zeta. split; [|by vm_compute].
  apply (X4_refreshGuild (K := Sample.responses) "g1" Sample.world rows_distinct).
  exists (Sample.row 2 "g1" 1 EmptyString "second").
  split; [|done]. simpl. unfold Sample.rows. set_solver.
Defined.

(** X5 at the sample table: the first record has [c1] in its list and is
    installed for [c1]. *)
Lemma X5_refreshChannel_members_witness :
  held (channelCache (Feature.refreshChannel (K := Sample.responses) "c1" Sample.world))
    "c1" 1
  = Some (Feature.fromData (K := Sample.responses)
            (Sample.row 1 "g1" 0 "c1,c2" "first")).
Proof.
  apply (X5_refreshChannel_members (K := Sample.responses) "c1" Sample.world
           (Sample.row 1 "g1" 0 "c1,c2" "first") rows_distinct).
  - repeat constructor; discriminate.
  - simpl. unfold Sample.rows. set_solver.
  - vm_compute. by left.
Defined.

(** X6 at the sample table: the row of the id 3 is found, and no row has
    the id 4. *)
Lemma X6_getByID_witness :
  Feature.getByID (K := Sample.responses) 3 Sample.world
  = Some (Feature.fromData (K := Sample.responses)
            (Sample.row 3 "g2" 1 EmptyString "other")).
Proof.
  apply (proj1 (proj2 (X6_getByID (K := Sample.responses) Sample.world rows_distinct))
           (Sample.row 3 "g2" 1 EmptyString "other")).
  simpl. unfold Sample.rows. set_solver.
Defined.

(** ** Hits, misses and timers *)

Section HitFacts.
Context {K : FeatureKind}.
Implicit Types (this : ChatTriggeredFeature Extra) (w : World Extra).

Lemma get_hit (e1 e2 : Feature.wait) (channelId guildId : string) w
    (forChannel forGuild : Collection.t (ChatTriggeredFeature Extra)) :
  channelCache w !! channelId = Some forChannel →
  guildCache w !! guildId = Some forGuild →
  Feature.get e1 e2 channelId guildId w
  = (Normal (Collection.sort Feature.by_id (Collection.concat forChannel forGuild)), w).
Proof.
  intros Hc Hg. unfold Feature.get.
  rewrite Hc. simpl. rewrite Hg. simpl. by rewrite Hc, Hg.
Qed.







(** X8: once the function of the timer of a scope has run, the scope is no
    longer cached while every other entry stays, and the next [get], when
    nothing disturbs it, reads the scope from the table again and caches
    what it read. *)
Theorem X8_expire_then_reload (channelId guildId : string) w :
  let pattern := String "%" (channelId +:+ "%") in
  let w1 := Feature.expire ChannelScope channelId w in
  let w2 := Feature.expire GuildScope guildId w in
  (channelCache w1 !! channelId = None
   ∧ (∀ c, c ≠ channelId → channelCache w1 !! c = channelCache w !! c)
   ∧ guildCache w1 = guildCache w
   ∧ issued (Feature.get Feature.quiet Feature.quiet channelId guildId w1).2
     = issued w ++ SelectChannels pattern
                   :: match guildCache w !! guildId with
                      | Some _ => []
                      | None => [SelectGlobal guildId]
                      end
   ∧ channelCache (Feature.get Feature.quiet Feature.quiet channelId guildId w1).2 !! channelId
     = Some (Feature.collect
               (filter (fun r => Sql.LIKE (row_channels r) pattern = true) (table w))))
  ∧ (guildCache w2 !! guildId = None
     ∧ (∀ g, g ≠ guildId → guildCache w2 !! g = guildCache w !! g)
     ∧ channelCache w2 = channelCache w
     ∧ issued (Feature.get Feature.quiet Feature.quiet channelId guildId w2).2
       = issued w ++ match channelCache w !! channelId with
                     | Some _ => []
                     | None => [SelectChannels pattern]
                     end ++ [SelectGlobal guildId]
     ∧ guildCache (Feature.get Feature.quiet Feature.quiet channelId guildId w2).2 !! guildId
       = Some (Feature.collect
                 (filter (fun r => String.eqb (row_guildid r) guildId = true
                                   ∧ row_global r = 1) (table w)))).
Proof.
  cbv zeta. split.
  - split; [apply lookup_delete_eq|]. split; [intros c Hc; by apply lookup_delete_ne|].
    split; [done|]. unfold Feature.get. simpl. rewrite lookup_delete_eq. simpl.
    destruct (guildCache w !! guildId) as [g|] eqn:Eg; simpl;
      rewrite ?Eg, ?lookup_insert_eq; simpl; rewrite ?lookup_insert_eq;
      by rewrite <- ?app_assoc.
  - split; [apply lookup_delete_eq|]. split; [intros g Hg; by apply lookup_delete_ne|].
    split; [done|]. unfold Feature.get. simpl.
    destruct (channelCache w !! channelId) as [c|] eqn:Ec; simpl;
      rewrite ?Ec, ?lookup_delete_eq, ?lookup_insert_eq; simpl;
      rewrite ?Ec, ?lookup_delete_eq, ?lookup_insert_eq; simpl;
      rewrite ?lookup_insert_eq, ?app_nil_r, <- ?app_assoc; done.
Qed.

Lemma cache_ok_remove this w : cache_ok w → cache_ok (Feature.remove this w).
Proof.
  intros [Hch Hgu]. unfold Feature.remove.
  set (w0 := Feature.with_table (Feature.delete_rows (id this) (table w)) w).
  pose proof (remove_cache_spec this w0) as [_ Hc].
  change (channelCache w0) with (channelCache w) in Hc.
  change (guildCache w0) with (guildCache w) in Hc.
  assert (Hdel : ∀ items : Collection.t (ChatTriggeredFeature Extra),
            distinct_keys items ∧ keyed_by_id items →
            distinct_keys (Feature.delete_id items (id this))
            ∧ keyed_by_id (Feature.delete_id items (id this))).
  { intros items [Hd Hk]. destruct (id this); simpl; [|done].
    split; [by apply distinct_keys_delete | by apply Forall_delete]. }
  destruct (global this); destruct Hc as [Hsame Hlook]; split.
  - rewrite Hsame. exact Hch.
  - intros g c. rewrite Hlook. case_decide; [|apply Hgu].
    destruct (guildCache w !! g) as [items|] eqn:E; [|done].
    intros [= <-]. apply Hdel. by eapply Hgu.
  - intros k c. rewrite Hlook. case_decide; [|apply Hch].
    destruct (channelCache w !! k) as [items|] eqn:E; [|done].
    intros [= <-]. apply Hdel. by eapply Hch.
  - rewrite Hsame. exact Hgu.
Qed.

(** X9: every cache the operations can reach holds each record under its
    own id, once per collection: this holds of the empty cache and is kept
    by [refreshChannel], [refreshGuild], [get] (whatever happens during its
    waits), [save], [remove] and the functions of the timers. *)
Theorem X9_cache_invariant :
  (∀ t : list (Row Extra),
     cache_ok {| table := t; issued := []; channelCache := ∅; guildCache := ∅;
                 timers := [] |})
  ∧ ∀ w, cache_ok w →
      (∀ channelId, cache_ok (Feature.refreshChannel channelId w))
      ∧ (∀ guildId, cache_ok (Feature.refreshGuild guildId w))
      ∧ (∀ e1 e2 channelId guildId,
           cache_ok (Feature.get e1 e2 channelId guildId w).2)
      ∧ (∀ this, cache_ok (Feature.save this w).2)
      ∧ (∀ this, cache_ok (Feature.remove this w))
      ∧ (∀ s key, cache_ok (Feature.expire s key w)).
Proof.
  split; [apply cache_ok_empty|]. intros w Hw.
  split; [intros; by apply cache_ok_refreshChannel|].
  split; [intros; by apply cache_ok_refreshGuild|].
  split; [intros; by apply cache_ok_get|].
  split; [intros; by apply cache_ok_save|].
  split; [intros; by apply cache_ok_remove | intros; by apply cache_ok_expire].
Qed.

End HitFacts.

(** ** Triggers from validation to matching *)

Section ValidatedFacts.
Context {R : JsRegExp}.

(** X10: a trigger [getTrigger] has accepted never makes [matches] throw:
    its kind is one of the four, the pattern of a regex trigger is one the
    engine compiles, and the content of a trigger of another kind is the
    value as given, which is not empty. *)
Theorem X10_accepted_never_throws (kind value : string) (r : TriggerResult.t)
    (t : Trigger) :
  Validation.getTrigger kind value = Normal r →
  TriggerResult.trigger r = Some t →
  type t = kind
  ∧ recognized kind
  ∧ (∀ message, ∃ b : bool, Matcher.matches t message = Normal b)
  ∧ (kind ≠ "regex" → content t = value ∧ value ≠ EmptyString ∧ flags t = None).
Proof.
  unfold Validation.getTrigger.
  destruct (Matcher.list_includes Validation.triggerTypes kind) eqn:Hk; simpl negb;
    cbv iota; [|by intros [= <-]].
  apply recognized_includes in Hk.
  destruct (Str.truthy value) eqn:Hv; simpl negb; cbv iota; [|by intros [= <-]].
  assert (Hne : value ≠ EmptyString)
    by (intros Heq; apply truthy_false in Heq; congruence).
  destruct (String.eqb_spec kind "regex") as [->|Hty].
  - destruct (_ || _); [by intros [= <-]|].
    destruct (RegExp_new _ _) as [test|] eqn:Hre; [|by intros [= <-]].
    intros [= <-] [= <-]. simpl. split; [done|]. split; [done|]. split; [|done].
    intros message. unfold Matcher.matches. simpl. rewrite Hre.
    destruct (test message); eauto.
  - intros [= <-] [= <-]. simpl. split; [done|]. split; [done|]. split; [|done].
    intros message. unfold Matcher.matches. simpl.
    destruct Hk as [-> | [-> | [-> | ->]]]; [done| | |]; simpl.
    + destruct (Str.includes _ _); eauto.
    + destruct (String.eqb _ _); eauto.
    + eauto.
Qed.

End ValidatedFacts.

(** X10 at the value [/foo.*bar/i] of kind regex, on an engine that takes
    the flag [i]. *)
Lemma X10_accepted_never_throws_witness :
  ∃ b : bool,
    Matcher.matches (R := Sample.plain_text)
      {| type := "regex"; content := "foo.*bar"; flags := Some "i" |}
      "a FOO.*BAR b"
    = Normal b.
Proof.
  exact (proj1 (proj2 (proj2
    (X10_accepted_never_throws (R := Sample.plain_text) "regex" "/foo.*bar/i"
       (accepted "regex" "foo.*bar" (Some "i"))
       {| type := "regex"; content := "foo.*bar"; flags := Some "i" |}
       eq_refl eq_refl))) "a FOO.*BAR b").
Defined.

(** ** Regex triggers as authored *)

Lemma slash_no_match (b : list ascii) (c : ascii) (a : list ascii) :
  (c = "/"%char → head b = Some "\"%char) →
  Regex.match_here false Validation.slash_regex b (c :: a) = None.
Proof.
  intros Hc. unfold Regex.match_here, Validation.slash_regex. simpl.
  destruct b as [|y b]; simpl.
  - destruct (Ascii.eqb_spec c "/") as [->|]; [|done]. by specialize (Hc eq_refl).
  - destruct (Ascii.eqb_spec y "\"); [done|].
    destruct (Ascii.eqb_spec c "/") as [->|]; [|done].
    specialize (Hc eq_refl). simpl in Hc. congruence.
Qed.

Lemma slash_match (b a : list ascii) :
  head b ≠ Some "\"%char →
  Regex.match_here false Validation.slash_regex b ("/"%char :: a)
  = Some (Regex.MState ("/"%char :: b) a []).
Proof.
  intros Hb. unfold Regex.match_here, Validation.slash_regex. simpl.
  destruct b as [|y b]; simpl; [done|].
  destruct (Ascii.eqb_spec y "\") as [->|]; [by simpl in Hb | done].
Qed.

Lemma slash_region (cs : list ascii) :
  ∀ b rest,
    slashes_escaped b cs →
    Regex.exec_all false Validation.slash_regex 0 b (cs ++ rest)
    = Regex.exec_all false Validation.slash_regex 0 (rev cs ++ b) rest.
Proof.
  induction cs as [|c cs IH]; intros b rest; simpl; [done|].
  intros [Hc Hcs]. rewrite slash_no_match by done.
  rewrite IH by done. by rewrite <- app_assoc.
Qed.

Lemma slash_at (b rest : list ascii) :
  head b ≠ Some "\"%char →
  Regex.exec_all false Validation.slash_regex 0 b ("/"%char :: rest)
  = (b, Regex.MState ("/"%char :: b) rest [])
    :: Regex.exec_all false Validation.slash_regex 0 ("/"%char :: b) rest.
Proof.
  intros Hb. simpl. rewrite slash_match by done. simpl.
  by replace (S (length b) - length b - 1)%nat with 0%nat by lia.
Qed.

Lemma slash_end (b : list ascii) :
  Regex.exec_all false Validation.slash_regex 0 b [] = [].
Proof.
  simpl. unfold Regex.match_here, Validation.slash_regex. simpl.
  destruct b as [|y b]; [done|]. by destruct (Ascii.eqb y "\").
Qed.

Lemma slash_free_escaped (s : string) (b : list ascii) :
  Str.has_unit "/" s = false → slashes_escaped b (list_ascii_of_string s).
Proof.
  revert b. induction s as [|c s IH]; intros b; simpl; [done|].
  rewrite orb_false_iff. intros [Hc Hs]. split; [|by apply IH].
  intros ->. by rewrite Ascii.eqb_refl in Hc.
Qed.

Lemma split_slashes (pattern fl : string) :
  slashes_escaped ["/"%char] (list_ascii_of_string pattern) →
  head (rev (list_ascii_of_string pattern) ++ ["/"%char]) ≠ Some "\"%char →
  Str.has_unit "/" fl = false →
  Regex.split Validation.slash_regex (String "/" (pattern +:+ String "/" fl))
  = [EmptyString; pattern; fl].
Proof.
  intros Hp Hlast Hf. unfold Regex.split.
  simpl list_ascii_of_string. rewrite list_ascii_of_string_app.
  simpl list_ascii_of_string.
  set (P := list_ascii_of_string pattern) in *.
  set (F := list_ascii_of_string fl).
  rewrite slash_at by done.
  rewrite slash_region by done.
  rewrite slash_at by done.
  assert (Htail : ∀ b, Regex.exec_all false Validation.slash_regex 0 b F = []).
  { intros b. rewrite <- (app_nil_r F).
    rewrite slash_region by by apply slash_free_escaped.
    apply slash_end. }
  rewrite Htail.
  simpl Regex.pieces. f_equal. f_equal.
  - rewrite length_app, length_rev. simpl.
    replace (length P + 1 - 1)%nat with (length (rev P))
      by (rewrite length_rev; lia).
    rewrite take_app_length, rev_involutive.
    apply string_of_list_ascii_of_string.
  - f_equal. rewrite rev_app_distr. simpl rev. rewrite <- !app_assoc.
    rewrite !length_app, !length_rev. simpl length.
    rewrite take_app_length' by (rewrite length_rev; lia).
    rewrite rev_involutive.
    apply string_of_list_ascii_of_string.
Qed.

(** X11: a regex trigger authored as [/pattern/flags] is read back as
    written: when every slash inside the pattern is escaped by a backslash,
    the pattern does not end in a backslash and the flags hold no slash,
    [getTrigger] hands exactly the pattern and the flags to the engine and,
    if the engine compiles them, builds the trigger of that pattern and
    those flags. *)
Theorem X11_regex_as_authored {R : JsRegExp} (pattern fl : string) :
  slashes_escaped ["/"%char] (list_ascii_of_string pattern) →
  head (rev (list_ascii_of_string pattern) ++ ["/"%char]) ≠ Some "\"%char →
  Str.has_unit "/" fl = false →
  Validation.getTrigger "regex" (String "/" (pattern +:+ String "/" fl))
  = Normal match RegExp_new pattern (Some fl) with
           | Some _ => accepted "regex" pattern (Some fl)
           | None => Validation.failure Validation.invalid_regex
           end.
Proof.
  intros Hp Hlast Hf. unfold Validation.getTrigger.
  rewrite split_slashes by done. simpl.
  by destruct (RegExp_new pattern (Some fl)).
Qed.

(** X11 at the value [/a\/b/i]: the pattern keeps its escaped slash. *)
Lemma X11_regex_as_authored_witness :
  Validation.getTrigger (R := Sample.plain_text) "regex" "/a\/b/i"
  = Normal (accepted "regex" "a\/b" (Some "i")).
Proof.
  apply (X11_regex_as_authored (R := Sample.plain_text) "a\/b" "i").
  - simpl. repeat split; intros H; discriminate H.
  - simpl. intros H. discriminate H.
  - reflexivity.
Defined.

Lemma split_open_slash (pattern : string) :
  slashes_escaped ["/"%char] (list_ascii_of_string pattern) →
  Regex.split Validation.slash_regex (String "/" pattern) = [EmptyString; pattern].
Proof.
  intros Hp. unfold Regex.split. simpl list_ascii_of_string.
  set (P := list_ascii_of_string pattern) in *.
  rewrite slash_at by done.
  assert (Htail : Regex.exec_all false Validation.slash_regex 0 ["/"%char] P = []).
  { rewrite <- (app_nil_r P). rewrite slash_region by done. apply slash_end. }
  rewrite Htail. simpl Regex.pieces. do 2 f_equal.
  rewrite length_app, length_rev. simpl length.
  rewrite take_app_length' by (rewrite length_rev; lia).
  rewrite rev_involutive. apply string_of_list_ascii_of_string.
Qed.

(** X12: a regex value that opens with a slash and has no closing slash is
    not refused: when every slash after the first follows a backslash,
    [getTrigger] takes all that follows the first slash for the pattern and
    leaves the flags undefined, so that the value [/] alone asks the engine
    for the empty pattern. *)
Theorem X12_regex_unclosed {R : JsRegExp} (pattern : string) :
  slashes_escaped ["/"%char] (list_ascii_of_string pattern) →
  Validation.getTrigger "regex" (String "/" pattern)
  = Normal match RegExp_new pattern None with
           | Some _ => accepted "regex" pattern None
           | None => Validation.failure Validation.invalid_regex
           end.
Proof.
  intros Hp. unfold Validation.getTrigger.
  rewrite split_open_slash by done. simpl.
  by destruct (RegExp_new pattern None).
Qed.

(** X12 at the value [/]: the trigger built has the empty pattern. *)
Lemma X12_regex_unclosed_witness :
  Validation.getTrigger (R := Sample.plain_text) "regex" "/"
  = Normal (accepted "regex" EmptyString None).
Proof.
  apply (X12_regex_unclosed (R := Sample.plain_text) EmptyString). exact I.
Defined.

(** ** Overviews of any length *)

Section LongOverviewFacts.
Context {K : FeatureKind}.

Lemma overview_loop_flatten (objects : list (ChatTriggeredFeature Extra)) :
  ∀ (res : list string) (text : string),
    flatten (Feature.overview_loop objects res text).1
    +:+ (Feature.overview_loop objects res text).2
    = flatten res +:+ text +:+ flatten (getOverview <$> objects).
Proof.
  induction objects as [|o objects IH]; intros res text; simpl.
  - by rewrite append_empty_r.
  - destruct (String.length text + String.length (getOverview o) <? 2000)%nat.
    + by rewrite IH, append_assoc.
    + rewrite IH, flatten_app. simpl. by rewrite append_empty_r, append_assoc.
Qed.

Lemma overview_loop_prefix (objects : list (ChatTriggeredFeature Extra)) :
  ∀ (res : list string) (text : string),
    ∃ more, (Feature.overview_loop objects res text).1 = res ++ more.
Proof.
  induction objects as [|o objects IH]; intros res text; simpl.
  - exists []. by rewrite app_nil_r.
  - destruct (String.length text + String.length (getOverview o) <? 2000)%nat.
    + apply IH.
    + destruct (IH (res ++ [text]) (getOverview o)) as [more ->].
      exists (text :: more). by rewrite <- app_assoc.
Qed.

Lemma overview_loop_groups (objects : list (ChatTriggeredFeature Extra)) :
  ∀ (gs : list (list string)) (g : list string),
    Forall chunk_group (gs ++ [g]) →
    ∃ (gs' : list (list string)) (g' : list string),
      Feature.overview_loop objects (flatten <$> gs) (flatten g)
      = (flatten <$> gs', flatten g')
      ∧ List.concat (gs' ++ [g'])
        = List.concat (gs ++ [g]) ++ (getOverview <$> objects)
      ∧ Forall chunk_group (gs' ++ [g']).
Proof.
  induction objects as [|o objects IH]; intros gs g Hok; simpl.
  - exists gs, g. by rewrite app_nil_r.
  - apply Forall_app in Hok as [Hgs Hg].
    destruct (Nat.ltb_spec (String.length (flatten g) + String.length (getOverview o))
                2000) as [Hlt|Hge].
    + destruct (IH gs (g ++ [getOverview o])) as (gs' & g' & Hloop & Hcat & Hok').
      { apply Forall_app. split; [done|]. constructor; [|done]. left.
        rewrite flatten_app, length_append. simpl. rewrite append_empty_r. lia. }
      exists gs', g'. rewrite flatten_app in Hloop. simpl in Hloop.
      rewrite append_empty_r in Hloop. split; [done|]. split; [|done].
      rewrite Hcat, !concat_app. simpl. by rewrite !app_nil_r, <- !app_assoc.
    + destruct (IH (gs ++ [g]) [getOverview o]) as (gs' & g' & Hloop & Hcat & Hok').
      { apply Forall_app. split; [by apply Forall_app|].
        constructor; [|done]. right. by eexists. }
      exists gs', g'. rewrite fmap_app in Hloop. simpl in Hloop.
      rewrite append_empty_r in Hloop. split; [done|]. split; [|done].
      rewrite Hcat, !concat_app. simpl. by rewrite !app_nil_r, <- !app_assoc.
Qed.

(** X13: whatever the lengths of the summaries, [getGuildOverview] reads
    the records as [getAll] does and nothing more, answers [null] exactly
    when there is no record, and loses no text: the chunks put one after the
    other are the summaries in order. A summary is never cut: the chunks are
    the texts of groups of whole summaries that follow one another (the last
    group being left out when its text is empty), and a group is shorter than
    2000 units in all or is one summary alone; when the first summary has
    2000 units or more, the answer begins with an empty chunk. *)
Theorem X13_overview_any_length (guildId : string) (w : World Extra) :
  let objects := Collection.values (Feature.getAll guildId w).1 in
  let answer := Feature.getGuildOverview guildId w in
  answer.2 = (Feature.getAll guildId w).2
  ∧ (answer.1 = None ↔ objects = [])
  ∧ (∀ chunks, answer.1 = Some chunks →
       flatten chunks = flatten (getOverview <$> objects))
  ∧ (∀ o rest, objects = o :: rest →
       (2000 ≤ String.length (getOverview o))%nat →
       ∃ more, answer.1 = Some (EmptyString :: more))
  ∧ (∀ chunks, answer.1 = Some chunks →
       ∃ (groups : list (list string)) (last : list string),
         List.concat (groups ++ [last]) = getOverview <$> objects
         ∧ Forall chunk_group (groups ++ [last])
         ∧ chunks
           = (flatten <$> groups)
             ++ if Str.truthy (flatten last) then [flatten last] else []).
Proof.
  cbv zeta. unfold Feature.getGuildOverview.
  destruct (Feature.getAll guildId w) as [objects w'] eqn:Hall. simpl.
  pose proof (overview_loop_flatten (Collection.values objects) [] EmptyString) as Hcat.
  destruct (overview_loop_groups (Collection.values objects) [] [])
    as (groups & last & Hgroups & Hwhole & Hok).
  { constructor; [|done]. left. simpl. lia. }
  simpl in Hgroups, Hwhole.
  destruct (Nat.eqb_spec (Collection.size objects) 0) as [Hz|Hnz].
  - assert (Hnil : objects = []) by by destruct objects.
    subst objects. simpl. repeat split; done.
  - destruct (Feature.overview_loop (Collection.values objects) [] EmptyString)
      as [res text] eqn:Hloop. simpl in *.
    change (flatten res +:+ text
            = flatten (getOverview <$> Collection.values objects)) in Hcat.
    split; [done|]. split.
    { split; [done|]. intros Hnil. destruct objects; [done | discriminate Hnil]. }
    split.
    + intros chunks [= <-]. rewrite <- Hcat. destruct text; simpl.
      * by rewrite append_empty_r.
      * rewrite flatten_app. simpl. by rewrite append_empty_r.
    + split.
      * intros o rest Ho Hlong. rewrite Ho in Hloop. simpl in Hloop.
        destruct (Nat.ltb_spec (String.length (getOverview o)) 2000) as [Hlt|_]; [lia|].
        destruct (overview_loop_prefix rest [EmptyString] (getOverview o))
          as [more Hmore].
        rewrite Hloop in Hmore. simpl in Hmore. subst res.
        destruct (Str.truthy text); eauto.
      * intros chunks [= <-]. exists groups, last.
        split; [done|]. split; [done|].
        injection Hgroups as -> ->.
        destruct (Str.truthy (flatten last)); [done | by rewrite app_nil_r].
Qed.

End LongOverviewFacts.

(** ** Thresholds that read as nothing *)

Lemma split_unit_none (sep : ascii) (s : string) :
  Str.has_unit sep s = false → Str.split_unit sep s = [s].
Proof.
  induction s as [|c s IH]; simpl; [done|].
  rewrite orb_false_iff. intros [-> Hs]. by rewrite IH.
Qed.

Lemma split_unit_app (sep : ascii) (d t : string) :
  Str.has_unit sep d = false →
  Str.split_unit sep (d +:+ String sep t) = d :: Str.split_unit sep t.
Proof.
  induction d as [|c d IH]; simpl.
  - intros _. change (EmptyString +:+ String sep t) with (String sep t).
    simpl. by rewrite Ascii.eqb_refl.
  - rewrite orb_false_iff. intros [Hc Hd]. by rewrite Hc, IH.
Qed.

(** X14: a threshold of zero cannot be asked for. When the text after the
    colon reads as 0, as -0 or as no number, the phishing trigger behaves on
    every message as the trigger without threshold does, that is with 0.5. *)
Theorem X14_zero_threshold {R : JsRegExp} (domain similarity : string)
    (f : option string) (message : string) :
  Str.has_unit ":" domain = false →
  Str.has_unit ":" similarity = false →
  Num.truthy (Num.parseFloat_string similarity) = false →
  Matcher.matches
    {| type := "phishing"; content := domain +:+ String ":" similarity; flags := f |}
    message
  = Matcher.matches {| type := "phishing"; content := domain; flags := f |} message.
Proof.
  intros Hd Hs Hzero. rewrite !matches_phishing. f_equal.
  unfold Matcher.phishing, Matcher.split_content.
  rewrite split_unit_app, !split_unit_none by done.
  unfold Num.or_half, Num.parseFloat. by rewrite Hzero.
Qed.

(** X14 at [discord.com:0]: a link to another site does not set the
    trigger off, as it would if the threshold were 0. *)
Lemma X14_zero_threshold_witness :
  Matcher.matches (R := Sample.no_patterns)
    {| type := "phishing"; content := "discord.com:0"; flags := None |}
    "see https://example.org/page"
  = Normal false.
Proof.
  etrans.
  - apply (X14_zero_threshold (R := Sample.no_patterns) "discord.com" "0" None
             "see https://example.org/page"); reflexivity.
  - vm_compute. reflexivity.
Defined.

(** ** Reading what was saved *)

Section ReadBackFacts.
Context {K : FeatureKind}.
Implicit Types (this : ChatTriggeredFeature Extra) (w : World Extra).

Lemma save_written_through this w this' w' (key : Z) :
  Feature.save this w = (Normal this', w') →
  id this' = Some key →
  written_through this' key w w'.
Proof.
  intros Hsave Hid. revert Hsave. unfold Feature.save.
  destruct (Feature.truthy_id (id this)) as [key0|] eqn:Ht.
  - destruct (negb _); [done|]. simpl.
    destruct (run_update _ _) as [t|]; [|done]. intros [= <- <-].
    assert (key0 = key) as ->.
    { unfold Feature.truthy_id in Ht. rewrite Hid in Ht.
      by destruct (key =? 0); simplify_eq. }
    apply (save_cache_spec this key (Feature.with_table t (Feature.issue _ w))).
  - simpl. destruct (run_insert _ _) as [[insertId t]|]; [|done].
    intros [= <- <-]. simpl in Hid. injection Hid as ->.
    apply (save_cache_spec (Feature.with_id this key) key
             (Feature.with_table t (Feature.issue _ w))).
Qed.

(** X15: what [save] has stored is read back from the cache. When the
    channel and the guild asked for are both cached, a [get] after a [save]
    that ended normally is a pure hit, with no wait, and it answers the
    record as saved under its id if the record is global and of that guild,
    or if it is not global, has the channel in its list and the cached guild
    held no record of that id. *)
Theorem X15_save_then_get this w this' w' (key : Z) (channelId guildId : string) :
  cache_ok w →
  Feature.save this w = (Normal this', w') →
  id this' = Some key →
  is_Some (channelCache w !! channelId) →
  is_Some (guildCache w !! guildId) →
  (if global this' then gid this' = guildId
   else channelId ∈ channels this' ∧ held (guildCache w) guildId key = None) →
  ∃ result,
    (∀ e1 e2, Feature.get e1 e2 channelId guildId w' = (Normal result, w'))
    ∧ Collection.get result key = Some this'.
Proof.
  intros Hok Hsave Hid [forChannel Hc] [forGuild Hg] Hscope.
  pose proof (save_written_through _ _ _ _ _ Hsave Hid) as Hw.
  assert (Hok' : cache_ok w').
  { pose proof (cache_ok_save this w Hok) as H. by rewrite Hsave in H. }
  unfold written_through in Hw. unfold held in Hscope. rewrite Hg in Hscope.
  simpl in Hscope.
  assert (Hcached : ∃ c' g',
            channelCache w' !! channelId = Some c'
            ∧ guildCache w' !! guildId = Some g'
            ∧ match Collection.get g' key with
              | Some v => Some v
              | None => Collection.get c' key
              end = Some this').
  { destruct (global this'); destruct Hw as [Hsame Hlook].
    - subst guildId. eexists forChannel, _. split; [by rewrite Hsame|].
      split; [by rewrite Hlook, decide_True, Hg|].
      by rewrite get_set, decide_True.
    - destruct Hscope as [Hin Hnone]. eexists _, forGuild.
      split; [by rewrite Hlook, decide_True, Hc|].
      split; [by rewrite Hsame|].
      rewrite Hnone. by rewrite get_set, decide_True. }
  destruct Hcached as (c' & g' & Hc' & Hg' & Hkey).
  destruct Hok' as [Hch Hgu].
  destruct (Hch _ _ Hc') as [HdC HkC]. destruct (Hgu _ _ Hg') as [HdG HkG].
  destruct (sort_concat_spec c' g' HdC HkC HdG HkG) as [Hget _].
  eexists. split; [intros e1 e2; by apply get_hit|]. by rewrite Hget.
Qed.

End ReadBackFacts.

(** X15 at a new global record of the guild [g1], saved while [c1] and
    [g1] are cached: [get] answers it under the id 4 the insert gave it. *)
Lemma X15_save_then_get_witness :
  let this : ChatTriggeredFeature string :=
    {| id := None; global := true; gid := "g1"; channels := [EmptyString];
       trigger := {| type := "include"; content := "new"; flags := None |};
       extra := "new" |} in
  let w := Feature.refreshChannel (K := Sample.responses) "c1"
             (Feature.refreshGuild (K := Sample.responses) "g1" Sample.world) in
  let w' := (Feature.save (K := Sample.responses) this w).2 in
  ∃ result,
    (∀ e1 e2, Feature.get (K := Sample.responses) e1 e2 "c1" "g1" w'
              = (Normal result, w'))
    ∧ Collection.get result 4
      = Some (Feature.with_id (K := Sample.responses) this 4).
Proof.
  cbv zeta.
  set (this := {| id := None; global := true; gid := "g1"; channels := [EmptyString];
       trigger := {| type := "include"; content := "new"; flags := None |};
       extra := "new" |} : ChatTriggeredFeature string).
  set (w := Feature.refreshChannel (K := Sample.responses) "c1"
              (Feature.refreshGuild (K := Sample.responses) "g1" Sample.world)).
  apply (X15_save_then_get (K := Sample.responses) this w
           (Feature.with_id (K := Sample.responses) this 4)
           (Feature.save (K := Sample.responses) this w).2 4 "c1" "g1").
  - apply cache_ok_refreshChannel, cache_ok_refreshGuild, cache_ok_empty.
  - by vm_compute.
  - reflexivity.
  - eexists. vm_compute. reflexivity.
  - eexists. vm_compute. reflexivity.
  - reflexivity.
Defined.

(** ** What a phishing trigger cannot fire on *)

Lemma requires_run (ic : bool) (c : ascii) (r : Regex.regex) :
  matched_exactly ic c → requires_unit c r = true →
  ∀ (k : Regex.mstate → option Regex.mstate) (st e : Regex.mstate),
    Regex.run ic r k st = Some e → c ∈ Regex.after st.
Proof.
  intros Hc. induction r as [x|p|r1 IH1 r2 IH2|r IH|p|n r IH| | | |x];
    simpl; try done; intros Hr k st e.
  - apply Ascii.eqb_eq in Hr as ->. destruct (Regex.after st) as [|y a]; [done|].
    destruct (Regex.same_unit ic y c) eqn:E; [|done]. intros _.
    apply Hc in E as ->. by left.
  - apply orb_true_iff in Hr as [Hr|Hr].
    + by apply IH1.
    + intros H. apply run_reached in H as (st' & H & (cs & -> & _)).
      apply elem_of_app. right. by eapply IH2.
  - by apply IH.
Qed.

Lemma exec_all_nothing (ic : bool) (c : ascii) (r : Regex.regex) :
  matched_exactly ic c → requires_unit c r = true →
  ∀ (a : list ascii) (skip : nat) (b : list ascii),
    c ∉ a → Regex.exec_all ic r skip b a = [].
Proof.
  intros Hc Hr. induction a as [|x a IH]; intros skip b Hno.
  - destruct skip; simpl; [|done].
    destruct (Regex.match_here ic r b []) as [e|] eqn:E; [|done].
    apply (requires_run ic c r Hc Hr) in E. by apply elem_of_nil in E.
  - assert (Ha : c ∉ a) by (intros ?; apply Hno; by right).
    destruct skip; simpl; [|by apply IH].
    destruct (Regex.match_here ic r b (x :: a)) as [e|] eqn:E; [|by apply IH].
    apply (requires_run ic c r Hc Hr) in E. done.
Qed.

Lemma exec_nothing (ic : bool) (c : ascii) (r : Regex.regex) :
  matched_exactly ic c → requires_unit c r = true →
  ∀ (a b : list ascii), c ∉ a → Regex.exec ic r b a = None.
Proof.
  intros Hc Hr. induction a as [|x a IH]; intros b Hno; simpl.
  - destruct (Regex.match_here ic r b []) as [e|] eqn:E; [|done].
    apply (requires_run ic c r Hc Hr) in E. by apply elem_of_nil in E.
  - destruct (Regex.match_here ic r b (x :: a)) as [e|] eqn:E.
    + apply (requires_run ic c r Hc Hr) in E. done.
    + apply IH. intros ?. apply Hno. by right.
Qed.

Lemma has_unit_elem (c : ascii) (s : string) :
  Str.has_unit c s = false → c ∉ list_ascii_of_string s.
Proof.
  induction s as [|x s IH]; simpl; [intros _; apply not_elem_of_nil|].
  rewrite orb_false_iff. intros [Hx Hs]. apply Ascii.eqb_neq in Hx.
  intros [?|?]%elem_of_cons; [congruence | by apply IH].
Qed.

Lemma matched_exactly_case (c : ascii) : matched_exactly false c.
Proof. intros x. unfold Regex.same_unit. apply Ascii.eqb_eq. Qed.

Lemma matched_exactly_slash : matched_exactly true "/".
Proof.
  intros x. unfold Regex.same_unit.
  destruct x as [[] [] [] [] [] [] [] []]; vm_compute; intros H;
    first [reflexivity | discriminate H].
Qed.

Lemma lower_unit_dot (x : ascii) :
  Ascii.eqb (Str.lower_unit x) "." = Ascii.eqb x ".".
Proof. destruct x as [[] [] [] [] [] [] [] []]; vm_compute; reflexivity. Qed.

Lemma toLowerCase_dot (s : string) :
  Str.has_unit "." (Str.toLowerCase s) = Str.has_unit "." s.
Proof. induction s as [|x s IH]; simpl; [done|]. by rewrite lower_unit_dot, IH. Qed.

(** X16: a phishing trigger looks at links only: whatever its content, it
    does not fire on a message in which no slash occurs. *)
Theorem X16_phishing_needs_link {R : JsRegExp} (content : string)
    (f : option string) (message : string) :
  Str.has_unit "/" message = false →
  Matcher.matches {| type := "phishing"; content := content; flags := f |} message
  = Normal false.
Proof.
  intros Hno. rewrite matches_phishing. f_equal.
  unfold Matcher.phishing. destruct (Matcher.split_content content) as [domain similarity].
  unfold Matcher.phishing_parsed, Regex.matchAll.
  rewrite (exec_all_nothing true "/" Matcher.link_regex matched_exactly_slash eq_refl)
    by by apply has_unit_elem.
  simpl. destruct (Regex.exec_string _ _ _) as [parts|]; [|done].
  destruct (Regex.group 1 parts); [|done]. destruct (Regex.group 2 parts); [|done].
  by destruct (_ || _).
Qed.

(** X16 at a message that names a look-alike domain without a link. *)
Lemma X16_phishing_needs_link_witness :
  Matcher.matches (R := Sample.no_patterns) Sample.discord "discrod.com gives nitro"
  = Normal false.
Proof.
  apply (X16_phishing_needs_link (R := Sample.no_patterns)). reflexivity.
Defined.

(** X17: a phishing trigger whose content has no dot before its first
    colon fires on no message: its domain part has no extension. *)
Theorem X17_phishing_needs_extension {R : JsRegExp} (content : string)
    (f : option string) (message : string) :
  Str.has_unit "." (Matcher.split_content content).1 = false →
  Matcher.matches {| type := "phishing"; content := content; flags := f |} message
  = Normal false.
Proof.
  intros Hno. rewrite matches_phishing. f_equal.
  unfold Matcher.phishing. destruct (Matcher.split_content content) as [domain similarity].
  simpl in Hno. apply phishing_parsed_no_domain. unfold Regex.exec_string.
  rewrite (exec_nothing false "." Matcher.domain_regex (matched_exactly_case _) eq_refl);
    [done|].
  apply has_unit_elem. by rewrite toLowerCase_dot.
Qed.

(** X17 at the content [localhost:0.1] and a link to that very host. *)
Lemma X17_phishing_needs_extension_witness :
  Matcher.matches (R := Sample.no_patterns)
    {| type := "phishing"; content := "localhost:0.1"; flags := None |}
    "https://localhost.evil.example/login"
  = Normal false.
Proof.
  apply (X17_phishing_needs_extension (R := Sample.no_patterns)). reflexivity.
Defined.

(** ** The channels of a loaded record *)

(** X18: the list of channels [fromData] gives a record is the text of the
    column cut at its commas: it is never empty (an empty text gives the one
    channel with the empty id), no channel holds a comma, and the channels
    joined by commas are the text again. *)
Theorem X18_fromData_channels {K : FeatureKind} (data : Row Extra) :
  channels (Feature.fromData data) ≠ []
  ∧ String.concat "," (channels (Feature.fromData data)) = row_channels data
  ∧ Forall (fun c => Str.has_unit "," c = false) (channels (Feature.fromData data))
  ∧ (row_channels data = EmptyString →
     channels (Feature.fromData data) = [EmptyString]).
Proof.
  simpl. split; [apply split_unit_nonempty|].
  split; [apply split_unit_join|]. split; [apply split_unit_clean|].
  by intros ->.
Qed.

(** ** What follows the flags *)

Lemma split_more_slashes (pattern fl rest : string) :
  slashes_escaped ["/"%char] (list_ascii_of_string pattern) →
  head (rev (list_ascii_of_string pattern) ++ ["/"%char]) ≠ Some "\"%char →
  Str.has_unit "/" fl = false →
  head (rev (list_ascii_of_string fl) ++ ["/"%char]) ≠ Some "\"%char →
  ∃ more,
    Regex.split Validation.slash_regex
      (String "/" (pattern +:+ String "/" (fl +:+ String "/" rest)))
    = EmptyString :: pattern :: fl :: more.
Proof.
  intros Hp Hlast Hf Hflast. unfold Regex.split.
  simpl list_ascii_of_string. rewrite list_ascii_of_string_app.
  simpl list_ascii_of_string. rewrite list_ascii_of_string_app.
  simpl list_ascii_of_string.
  set (P := list_ascii_of_string pattern) in *.
  set (F := list_ascii_of_string fl) in *.
  set (T := list_ascii_of_string rest).
  rewrite slash_at by done.
  rewrite slash_region by done.
  rewrite slash_at by done.
  rewrite slash_region by by apply slash_free_escaped.
  rewrite slash_at.
  2:{ destruct (rev F) as [|x l] eqn:E; simpl in *; [intros [=] | done]. }
  simpl Regex.pieces. eexists. f_equal. f_equal; [|f_equal].
  - rewrite length_app, length_rev. simpl.
    replace (length P + 1 - 1)%nat with (length (rev P))
      by (rewrite length_rev; lia).
    rewrite take_app_length, rev_involutive.
    apply string_of_list_ascii_of_string.
  - rewrite !length_app, !length_rev. simpl length.
    rewrite take_app_length'
      by (rewrite ?length_app, ?length_rev; simpl length; lia).
    rewrite rev_involutive.
    apply string_of_list_ascii_of_string.
Qed.

(** X19: whatever follows a third slash of a regex value is dropped
    without notice: when every slash inside the pattern follows a backslash,
    neither the pattern nor the flags end in a backslash and the flags hold
    no slash, the value [/pattern/flags/rest] gives what [/pattern/flags]
    gives. *)
Theorem X19_regex_rest_dropped {R : JsRegExp} (pattern fl rest : string) :
  slashes_escaped ["/"%char] (list_ascii_of_string pattern) →
  head (rev (list_ascii_of_string pattern) ++ ["/"%char]) ≠ Some "\"%char →
  Str.has_unit "/" fl = false →
  head (rev (list_ascii_of_string fl) ++ ["/"%char]) ≠ Some "\"%char →
  Validation.getTrigger "regex"
    (String "/" (pattern +:+ String "/" (fl +:+ String "/" rest)))
  = Validation.getTrigger "regex" (String "/" (pattern +:+ String "/" fl)).
Proof.
  intros Hp Hlast Hf Hflast. unfold Validation.getTrigger.
  destruct (split_more_slashes pattern fl rest Hp Hlast Hf Hflast) as [more ->].
  by rewrite split_slashes by done.
Qed.

(** X19 at the value [/a/i/whatever]. *)
Lemma X19_regex_rest_dropped_witness :
  Validation.getTrigger (R := Sample.plain_text) "regex" "/a/i/whatever"
  = Normal (accepted "regex" "a" (Some "i")).
Proof.
  etrans.
  - apply (X19_regex_rest_dropped (R := Sample.plain_text) "a" "i" "whatever").
    + simpl. repeat split; intros H; discriminate H.
    + simpl. intros H. discriminate H.
    + reflexivity.
    + simpl. intros H. discriminate H.
  - vm_compute. reflexivity.
Defined.

(** ** What [save] leaves alone *)

Section SaveFrameFacts.
Context {K : FeatureKind}.
Implicit Types (this : ChatTriggeredFeature Extra) (w : World Extra).

Lemma save_cache_timers this (key : Z) w :
  timers (Feature.save_cache this key w) = timers w.
Proof.
  unfold Feature.save_cache. destruct (global this).
  - by destruct (guildCache w !! gid this).
  - generalize (channels this). intros chans. revert w.
    induction chans as [|channel chans IH]; intros w; simpl; [done|].
    destruct (channelCache w !! channel); [|apply IH]. by rewrite IH.
Qed.

Lemma written_through_scopes this (key : Z) w w' :
  written_through this key w w' →
  same_scopes (channelCache w') (channelCache w)
  ∧ same_scopes (guildCache w') (guildCache w).
Proof.
  unfold written_through, same_scopes.
  destruct (global this); intros [Hsame Hlook]; rewrite Hsame; split; try done;
    intros s; rewrite Hlook; case_decide; try done; by rewrite fmap_is_Some.
Qed.

(** X20: [save] never makes a scope cached and never drops one, and it
    sets no timer: a record saved for a scope that is not cached is seen
    there at the next reload only, and a cached scope still expires when
    its own timer is due. It sends at most one statement. *)
Theorem X20_save_frame this w :
  let w' := (Feature.save this w).2 in
  timers w' = timers w
  ∧ same_scopes (channelCache w') (channelCache w)
  ∧ same_scopes (guildCache w') (guildCache w)
  ∧ (issued w' = issued w ∨ ∃ q, issued w' = issued w ++ [q]).
Proof.
  cbv zeta. unfold Feature.save.
  destruct (Feature.truthy_id (id this)) as [key|].
  - destruct (negb _); [by repeat split; try left|]. simpl.
    destruct (run_update _ _) as [t|]; simpl; [|by repeat split; try right; eauto].
    set (w1 := Feature.with_table t (Feature.issue _ w)).
    rewrite save_cache_timers.
    destruct (written_through_scopes _ _ _ _ (save_cache_spec this key w1)) as [Hc Hg].
    destruct (save_cache_issued this key w1) as [Hi _].
    split; [done|]. split; [done|]. split; [done|]. right. rewrite Hi. simpl. eauto.
  - simpl. destruct (run_insert _ _) as [[insertId t]|]; simpl;
      [|by repeat split; try right; eauto].
    set (w1 := Feature.with_table t (Feature.issue _ w)).
    rewrite save_cache_timers.
    destruct (written_through_scopes _ _ _ _
                (save_cache_spec (Feature.with_id this insertId) insertId w1)) as [Hc Hg].
    destruct (save_cache_issued (Feature.with_id this insertId) insertId w1) as [Hi _].
    split; [done|]. split; [done|]. split; [done|]. right. rewrite Hi. simpl. eauto.
Qed.

End SaveFrameFacts.

(** ** What an undisturbed [get] reads *)

Section LoadFacts.
Context {K : FeatureKind}.
Implicit Types (w : World Extra) (t : list (Row Extra)).

Lemma row_of_id t (r r' : Row Extra) :
  distinct_ids t → r ∈ t → r' ∈ t → row_id r = row_id r' → r = r'.
Proof.
  unfold distinct_ids. induction t as [|x t IH]; [by intros _ ?%elem_of_nil|].
  rewrite fmap_cons, NoDup_cons. intros [Hx Ht] Hr Hr' Hid.
  apply elem_of_cons in Hr as [->|Hr], Hr' as [->|Hr']; try done.
  - exfalso. apply Hx. rewrite Hid. apply list_elem_of_fmap. by exists r'.
  - exfalso. apply Hx. rewrite <- Hid. apply list_elem_of_fmap. by exists r.
  - by apply IH.
Qed.

(** X21: what [get] answers when neither scope is cached, nothing runs
    during its waits and both queries are answered, for a table with
    distinct ids and a channel id without wildcard units: exactly the
    records of the rows whose [channels] text the channel id occurs in and
    of the global rows of the guild, each under the id of its row, in
    ascending order of the ids. *)
Theorem X21_get_reads_rows (channelId guildId : string) w :
  distinct_ids (table w) →
  plain (list_ascii_of_string channelId) →
  channelCache w !! channelId = None →
  guildCache w !! guildId = None →
  ∃ result w',
    Feature.get Feature.quiet Feature.quiet channelId guildId w = (Normal result, w')
    ∧ (∀ k v, Collection.get result k = Some v
              ↔ ∃ r, r ∈ table w ∧ row_id r = k ∧ v = Feature.fromData r
                     ∧ (occurs_in channelId (row_channels r)
                        ∨ (row_guildid r = guildId ∧ row_global r = 1)))
    ∧ StronglySorted id_lt (Collection.values result).
Proof.
  intros Hids Hp Hc Hg.
  set (rowsC := filter (fun r => Sql.LIKE (row_channels r)
                                   (String "%" (channelId +:+ "%")) = true) (table w)).
  set (rowsG := filter (fun r => String.eqb (row_guildid r) guildId = true
                                 ∧ row_global r = 1) (table w)).
  destruct (collect_ok rowsC) as [HdC HkC]. destruct (collect_ok rowsG) as [HdG HkG].
  destruct (sort_concat_spec (Feature.collect rowsC) (Feature.collect rowsG)
              HdC HkC HdG HkG) as [Hget Hsorted].
  exists (Collection.sort Feature.by_id
            (Collection.concat (Feature.collect rowsC) (Feature.collect rowsG))),
    (Feature.refreshGuild guildId (Feature.refreshChannel channelId w)).
  split.
  { unfold Feature.get, Feature.reload. rewrite Hc. simpl. rewrite Hg. simpl.
    by rewrite !lookup_insert_eq. }
  split; [|exact Hsorted].
  assert (HinC : ∀ r, r ∈ rowsC ↔ r ∈ table w ∧ occurs_in channelId (row_channels r)).
  { intros r. unfold rowsC. rewrite list_elem_of_filter, LIKE_occurs by done. tauto. }
  assert (HinG : ∀ r, r ∈ rowsG
            ↔ r ∈ table w ∧ row_guildid r = guildId ∧ row_global r = 1).
  { intros r. unfold rowsG. rewrite list_elem_of_filter, String.eqb_eq. tauto. }
  intros k v. rewrite Hget. split.
  - destruct (Collection.get (Feature.collect rowsG) k) as [v'|] eqn:EG.
    + intros [= <-]. apply collect_sound in EG as (r & Hr & Hk & Hv).
      apply HinG in Hr as (Hr & Hgr & Hgl). exists r. eauto 10.
    + intros (r & Hr & Hk & Hv)%collect_sound.
      apply HinC in Hr as [Hr Ho]. exists r. eauto 10.
  - intros (r & Hr & <- & -> & Hwhich).
    destruct (Collection.get (Feature.collect rowsG) (row_id r)) as [v'|] eqn:EG.
    + apply collect_sound in EG as (r' & Hr' & Hk & ->).
      apply HinG in Hr' as (Hr' & _). by rewrite (row_of_id _ r r' Hids Hr Hr').
    + destruct Hwhich as [Ho | [Hgr Hgl]].
      * apply collect_complete; [by apply distinct_ids_filter | by apply HinC].
      * rewrite collect_complete in EG; [done | by apply distinct_ids_filter |].
        by apply HinG.
Qed.

End LoadFacts.

(** X21 at the sample table: the record of the channel [c1] and the global
    record of the guild [g1] are both answered. *)
Lemma X21_get_reads_rows_witness :
  ∃ result w',
    Feature.get (K := Sample.responses) Feature.quiet Feature.quiet
      "c1" "g1" Sample.world = (Normal result, w')
    ∧ Collection.get result 1
      = Some (Feature.fromData (K := Sample.responses)
                (Sample.row 1 "g1" 0 "c1,c2" "first"))
    ∧ Collection.get result 2
      = Some (Feature.fromData (K := Sample.responses)
                (Sample.row 2 "g1" 1 EmptyString "second"))
    ∧ Collection.get result 3 = None.
Proof.
  destruct (X21_get_reads_rows (K := Sample.responses) "c1" "g1" Sample.world)
    as (result & w' & Hget & Hrows & _).
  - exact rows_distinct.
  - repeat constructor; discriminate.
  - reflexivity.
  - reflexivity.
  - exists result, w'. split; [exact Hget|]. split; [|split].
    + apply Hrows. exists (Sample.row 1 "g1" 0 "c1,c2" "first").
      split; [simpl; unfold Sample.rows; rewrite !elem_of_cons; right; by left|].
      split; [done|]. split; [done|]. left. by exists EmptyString, ",c2".
    + apply Hrows. exists (Sample.row 2 "g1" 1 EmptyString "second").
      split; [simpl; unfold Sample.rows; rewrite !elem_of_cons; by left|].
      split; [done|]. split; [done|]. by right.
    + destruct (Collection.get result 3) as [v|] eqn:E; [|done]. exfalso.
      apply Hrows in E as (r & Hr & Hk & _ & Hwhich).
      simpl in Hr. unfold Sample.rows in Hr.
      rewrite !elem_of_cons, elem_of_nil in Hr.
      destruct Hr as [-> | [-> | [-> | []]]]; try discriminate Hk.
      destruct Hwhich as [(u & v' & Ho) | [Hgr _]]; [|discriminate Hgr].
      simpl in Ho. by destruct u.
Defined.
